(** * bigif: the reachable-state graph builder of [bigif/graph.go]

    A shallow embedding of the story-graph compiler.  Go strings are byte
    sequences and are embedded as [string]; [map[string]T] is [gmap string T].
    A run-time panic (index out of range) is the [None] of an [option]. *)

From Stdlib Require Import Ascii.
From stdpp Require Import gmap strings list fin_maps sorting.

Set Warnings "-clear-no-such-hyp".


(** ** The functions of Go's [strings] package that graph.go calls *)

Module GoStrings.

(** [strings.HasPrefix(s, prefix)]. *)
Fixpoint HasPrefix (s prefix : string) : bool :=
  match prefix, s with
  | "", _ => true
  | String p prefix', String c s' =>
      if decide (c = p) then HasPrefix s' prefix' else false
  | String _ _, "" => false
  end.

(** [strings.TrimPrefix(s, prefix)]: [s] without the leading [prefix], or
    [s] itself when it does not start with [prefix]. *)
Fixpoint TrimPrefix_go (s prefix : string) : option string :=
  match prefix, s with
  | "", _ => Some s
  | String p prefix', String c s' =>
      if decide (c = p) then TrimPrefix_go s' prefix' else None
  | String _ _, "" => None
  end.

Definition TrimPrefix (s prefix : string) : string :=
  default s (TrimPrefix_go s prefix).

(** [strings.Contains(s, substr)]: [substr] occurs at some offset of [s]. *)
Fixpoint Contains (s substr : string) : bool :=
  HasPrefix s substr ||
  match s with
  | "" => false
  | String _ s' => Contains s' substr
  end.

(** [strings.Split(s, sep)] for a non-empty [sep] (graph.go only splits at
    the literals "&&", "!=", "==" and "="): [s] is cut at every leftmost,
    non-overlapping occurrence of [sep]; the pieces between the cuts are
    returned in order, so the result always has at least one element.
    [skip] counts the bytes of a separator that is being stepped over. *)
Definition push_front (c : ascii) (pieces : list string) : list string :=
  match pieces with
  | p :: ps => String c p :: ps
  | [] => [String c ""]
  end.

Fixpoint Split_go (sep : string) (skip : nat) (s : string) : list string :=
  match s with
  | "" => [""]
  | String c s' =>
      match skip with
      | S k => Split_go sep k s'
      | O =>
          if HasPrefix s sep
          then "" :: Split_go sep (String.length sep - 1) s'
          else push_front c (Split_go sep 0 s')
      end
  end.

Definition Split (s sep : string) : list string := Split_go sep 0 s.

(** [strings.Join(elems, sep)]. *)
Definition Join (elems : list string) (sep : string) : string :=
  String.concat sep elems.

(** White space as [strings.TrimSpace] sees it: the runes for which
    [unicode.IsSpace] holds, each given by its UTF-8 encoding.  The six
    one-byte runes are the table [asciiSpace]; the others are U+0085,
    U+00A0, U+1680, U+2000..U+200A, U+2028, U+2029, U+202F, U+205F and
    U+3000.  A byte sequence that is not one of these encodings decodes to
    another rune (or to RuneError) and stops the trimming. *)
Definition asciiSpace (c : ascii) : bool :=
  match c with
  | "009" | "010" | "011" | "012" | "013" | " " => true
  | _ => false
  end%char.

Definition isSpace2 (c1 c2 : ascii) : bool :=
  bool_decide (c1 = "194"%char)
  && (bool_decide (c2 = "133"%char) || bool_decide (c2 = "160"%char)).

Definition isSpace3 (c1 c2 c3 : ascii) : bool :=
  (bool_decide (c1 = "225"%char) && bool_decide (c2 = "154"%char)
   && bool_decide (c3 = "128"%char))
  || (bool_decide (c1 = "226"%char) && bool_decide (c2 = "128"%char)
      && ((N.leb 128 (N_of_ascii c3) && N.leb (N_of_ascii c3) 138)
          || bool_decide (c3 = "168"%char) || bool_decide (c3 = "169"%char)
          || bool_decide (c3 = "175"%char)))
  || (bool_decide (c1 = "226"%char) && bool_decide (c2 = "129"%char)
      && bool_decide (c3 = "159"%char))
  || (bool_decide (c1 = "227"%char) && bool_decide (c2 = "128"%char)
      && bool_decide (c3 = "128"%char)).

(** [s] is exactly the encoding of one white-space rune. *)
Definition isSpaceRune (s : string) : bool :=
  match s with
  | String c "" => asciiSpace c
  | String c1 (String c2 "") => isSpace2 c1 c2
  | String c1 (String c2 (String c3 "")) => isSpace3 c1 c2 c3
  | _ => false
  end.

(** Leading white-space runes removed. *)
Fixpoint TrimLeftSpace (s : string) : string :=
  match s with
  | "" => ""
  | String c1 s1 =>
      if asciiSpace c1 then TrimLeftSpace s1 else
      match s1 with
      | "" => s
      | String c2 s2 =>
          if isSpace2 c1 c2 then TrimLeftSpace s2 else
          match s2 with
          | "" => s
          | String c3 s3 => if isSpace3 c1 c2 c3 then TrimLeftSpace s3 else s
          end
      end
  end.

(** Trailing white-space runes removed: once the tail is trimmed, what is
    left is dropped exactly when it is one white-space rune. *)
Fixpoint TrimRightSpace (s : string) : string :=
  match s with
  | "" => ""
  | String c s' =>
      let r := String c (TrimRightSpace s') in
      if isSpaceRune r then "" else r
  end.

(** [strings.TrimSpace(s)]. *)
Definition TrimSpace (s : string) : string :=
  TrimRightSpace (TrimLeftSpace s).

End GoStrings.

Import GoStrings.

(** [sort.Strings]: ascending byte-wise lexicographic order. *)
Definition sort_Strings (keys : list string) : list string :=
  merge_sort String.le keys.

(** The [%t] verb of [fmt.Sprintf]. *)
Definition fmt_bool (b : bool) : string := if b then "true" else "false".

(** ** The abstract syntax tree handed over by the parser *)

Record TextBlock := mkTextBlock {
  tbCondition : string;
  tbContent : string
}.

Record Choice := mkChoice {
  Text : string;
  Condition : string;
  StateChanges : list string;
  TargetKnot : string;
  Stitch : string
}.

Record Knot := mkKnot {
  Name : string;
  Scene : string;
  Body : list TextBlock;
  Choices : list Choice;
  IsEnd : bool
}.

(** [GlobalStates] maps a global variable to [true] when it is a flag;
    [LocalStates] holds the scene-scoped variables. *)
Record Script := mkScript {
  Metadata : gmap string string;
  GlobalStates : gmap string bool;
  LocalStates : gmap string bool;
  Knots : gmap string Knot
}.

(** ** The compiled graph *)

Record StoryEdge := mkStoryEdge {
  edgeText : string;
  TargetNodeID : string;
  edgeStitch : string
}.

Record StoryNode := mkStoryNode {
  KnotName : string;
  nodeScene : string;
  State : gmap string bool;
  Content : string;
  Edges : list StoryEdge;
  nodeIsEnd : bool;
  nodeStitch : string
}.

(** ** Conditions *)

(** Reading a [map[string]bool] at a missing key yields [false]. *)
Definition readState (state : gmap string bool) (name : string) : bool :=
  default false (state !! name).

(** One conjunct of [evaluateCondition]'s loop body: [None] is an index
    out of range, [Some false] makes the evaluator return [false]. *)
Definition evaluatePart (part : string) (state : gmap string bool)
  : option bool :=
  let part := TrimSpace part in
  if Contains part "!=" then
    let vals := Split part "!=" in
    v0 ← vals !! 0%nat; v1 ← vals !! 1%nat;
    let stateName := TrimSpace v0 in
    let valueStr := TrimSpace v1 in
    let expectedValue := bool_decide (valueStr = "true") in
    let actualValue := readState state stateName in
    Some (negb (eqb actualValue expectedValue))
  else if Contains part "==" then
    let vals := Split part "==" in
    v0 ← vals !! 0%nat; v1 ← vals !! 1%nat;
    let stateName := TrimSpace v0 in
    let valueStr := TrimSpace v1 in
    let expectedValue := bool_decide (valueStr = "true") in
    let actualValue := readState state stateName in
    Some (eqb actualValue expectedValue)
  else Some false.

Fixpoint evaluateParts (parts : list string) (state : gmap string bool)
  : option bool :=
  match parts with
  | [] => Some true
  | part :: parts' =>
      match evaluatePart part state with
      | None => None
      | Some false => Some false
      | Some true => evaluateParts parts' state
      end
  end.

Definition evaluateCondition (condition : string) (state : gmap string bool)
  : option bool :=
  evaluateParts (Split condition "&&") state.

(** ** State transition *)

(** One iteration of the loop of [applyStateChanges] over
    [choice.StateChanges]; [parts[1]] is out of range when [change] holds
    no "=". *)
Definition applyChange (ast : Script) (nextState : gmap string bool)
    (change : string) : option (gmap string bool) :=
  let parts := Split change "=" in
  p0 ← parts !! 0%nat;
  p1 ← parts !! 1%nat;
  let stateName := TrimSpace p0 in
  let newValue := bool_decide (TrimSpace p1 = "true") in
  let isFlag := default false (GlobalStates ast !! stateName) in
  let ok := bool_decide (is_Some (GlobalStates ast !! stateName)) in
  if ok && isFlag && negb newValue
  then Some nextState
  else Some (<[stateName := newValue]> nextState).

Fixpoint applyChanges (ast : Script) (nextState : gmap string bool)
    (changes : list string) : option (gmap string bool) :=
  match changes with
  | [] => Some nextState
  | change :: changes' =>
      match applyChange ast nextState change with
      | None => None
      | Some nextState' => applyChanges ast nextState' changes'
      end
  end.

(** [nextState] starts as a copy of [currentState]. *)
Definition applyStateChanges (currentState : gmap string bool)
    (choice : Choice) (ast : Script) : option (gmap string bool) :=
  applyChanges ast currentState (StateChanges choice).

(** [for state := range names { m[state] = false }]: used for the initial
    state and for the scene purge. *)
Definition setFalse (names : gmap string bool) (m : gmap string bool)
  : gmap string bool :=
  map_fold (λ state _ acc, <[state := false]> acc) m names.

Definition initialState (ast : Script) : gmap string bool :=
  setFalse (LocalStates ast) (setFalse (GlobalStates ast) ∅).

(** ** Canonical node identity *)

(** [keys] is the slice collected by ranging over [state], in whatever
    order the run-time enumerates the map. *)
Definition generateNodeID_from (keys : list string) (knotName : string)
    (state : gmap string bool) : string :=
  let keys := sort_Strings keys in
  let stateParts :=
    (λ k, k +:+ "=" +:+ fmt_bool (readState state k)) <$> keys in
  knotName +:+ "|" +:+ Join stateParts ",".

Definition generateNodeID (knotName : string) (state : gmap string bool)
  : string :=
  generateNodeID_from (map_to_list state).*1 knotName state.

(** ** Results of the builder *)

(** [Err] is a returned [error], [Panic] a run-time panic. *)
Inductive result (A : Type) : Type :=
  | Ok (a : A)
  | Err (msg : string)
  | Panic.
Arguments Ok {A} a.
Arguments Err {A} msg.
Arguments Panic {A}.

Definition result_bind {A B} (f : A → result B) (r : result A) : result B :=
  match r with
  | Ok a => f a
  | Err msg => Err msg
  | Panic => Panic
  end.

Global Instance result_mbind : MBind result := @result_bind.

Definition orPanic {A} (o : option A) : result A :=
  match o with
  | Some a => Ok a
  | None => Panic
  end.

(** ** Nodes *)

(** The loop of [createNode] over [knot.Body]: the content of the first
    block whose condition is empty or holds. *)
Fixpoint selectContent (body : list TextBlock) (state : gmap string bool)
  : result string :=
  match body with
  | [] => Ok ""
  | block :: body' =>
      if decide (tbCondition block = "") then Ok (tbContent block) else
      holds ← orPanic (evaluateCondition (tbCondition block) state);
      match holds with
      | true => Ok (tbContent block)
      | false => selectContent body' state
      end
  end.

Definition createNode (knotName : string) (knot : Knot)
    (state : gmap string bool) : result StoryNode :=
  content ← selectContent (Body knot) state;
  Ok {| KnotName := knotName; nodeScene := Scene knot; State := state;
        Content := content; Edges := []; nodeIsEnd := IsEnd knot;
        nodeStitch := "" |}.

(** ** The graph builder *)

Record StoryGraph := mkStoryGraph {
  graphMetadata : gmap string string;
  Graph : gmap string StoryNode
}.

(** The variables of [buildGraph]'s loop.  [graph.Graph] and [queue] hold
    pointers to the same nodes: a node is enqueued exactly when it is
    registered, under its own identity, and no entry of [graph.Graph] is
    ever overwritten.  The map is therefore the store of the nodes, and a
    pointer in [queue] is the key of its cell; appending an edge through
    the dequeued pointer changes the cell, and a key without a cell would
    be a nil dereference. *)
Record BuildState := mkBuildState {
  bsGraph : gmap string StoryNode;
  bsQueue : list string;
  bsVisited : gset string
}.

Definition addEdge (edge : StoryEdge) (node : StoryNode) : StoryNode :=
  {| KnotName := KnotName node; nodeScene := nodeScene node;
     State := State node; Content := Content node;
     Edges := Edges node ++ [edge]; nodeIsEnd := nodeIsEnd node;
     nodeStitch := nodeStitch node |}.

(** What a choice leads to: nothing ([continue]), or a unit and state. *)
Inductive followed :=
  | Skipped
  | Leads (targetKnotName : string) (targetKnot : Knot)
          (nextState : gmap string bool).

(** The guard of line 47:
    [choice.Condition != "" && !evaluateCondition(...)]. *)
Definition choiceSkipped (choice : Choice) (state : gmap string bool)
  : result bool :=
  if decide (Condition choice = "") then Ok false else
  holds ← orPanic (evaluateCondition (Condition choice) state);
  Ok (negb holds).

(** Lines 53-69: the unit a choice leads to; [None] is the [continue] of a
    choice with neither destination nor mutations. *)
Definition resolveDestination (currentKnotName : string) (choice : Choice)
  : option string :=
  let targetKnotName :=
    if decide (Stitch choice = "") then TargetKnot choice
    else TrimPrefix (Stitch choice) "." in
  if decide (targetKnotName = "") then
    if decide (StateChanges choice = []) then None
    else Some currentKnotName
  else Some targetKnotName.

(** Lines 76-80: the scene purge. *)
Definition purgeLocals (ast : Script) (currentKnot targetKnot : Knot)
    (nextState : gmap string bool) : gmap string bool :=
  if decide (Scene currentKnot = Scene targetKnot) then nextState
  else setFalse (LocalStates ast) nextState.

(** Lines 47-80 of the loop body, on [currentNode.KnotName] and
    [currentNode.State]: the guard, the successor state, the destination
    and the scene purge. *)
Definition followChoice (ast : Script) (knotName : string)
    (state : gmap string bool) (currentKnot : Knot) (choice : Choice)
  : result followed :=
  skip ← choiceSkipped choice state;
  match skip with
  | true => Ok Skipped
  | false =>
      nextState ← orPanic (applyStateChanges state choice ast);
      match resolveDestination knotName choice with
      | None => Ok Skipped
      | Some targetKnotName =>
          match Knots ast !! targetKnotName with
          | None =>
              Err ("choice leads to non-existent knot: '"
                   +:+ targetKnotName +:+ "'")
          | Some targetKnot =>
              Ok (Leads targetKnotName targetKnot
                    (purgeLocals ast currentKnot targetKnot nextState))
          end
      end
  end.

(** Lines 88-95: the edge is appended to the current node, whose cell is
    named by [key], and an identity seen for the first time is marked,
    registered and enqueued. *)
Definition register (key : string) (edge : StoryEdge) (nextNodeID : string)
    (nextNode : StoryNode) (st : BuildState) : BuildState :=
  let graph := alter (addEdge edge) key (bsGraph st) in
  if decide (nextNodeID ∈ bsVisited st)
  then {| bsGraph := graph; bsQueue := bsQueue st;
          bsVisited := bsVisited st |}
  else {| bsGraph := <[nextNodeID := nextNode]> graph;
          bsQueue := bsQueue st ++ [nextNodeID];
          bsVisited := {[nextNodeID]} ∪ bsVisited st |}.

(** Lines 82-95: the node, its identity, the edge, the registration. *)
Definition recordChoice (key : string) (choice : Choice)
    (targetKnotName : string) (targetKnot : Knot)
    (nextState : gmap string bool) (st : BuildState) : result BuildState :=
  nextNode ← createNode targetKnotName targetKnot nextState;
  let nextNodeID := generateNodeID (KnotName nextNode) (State nextNode) in
  let edge := {| edgeText := Text choice; TargetNodeID := nextNodeID;
                 edgeStitch := Stitch choice |} in
  Ok (register key edge nextNodeID nextNode st).

Definition processChoice (ast : Script) (key : string)
    (currentNode : StoryNode) (currentKnot : Knot) (st : BuildState)
    (choice : Choice) : result BuildState :=
  f ← followChoice ast (KnotName currentNode) (State currentNode)
        currentKnot choice;
  match f with
  | Skipped => Ok st
  | Leads targetKnotName targetKnot nextState =>
      recordChoice key choice targetKnotName targetKnot nextState st
  end.

Fixpoint processChoices (ast : Script) (key : string)
    (currentNode : StoryNode) (currentKnot : Knot) (st : BuildState)
    (choices : list Choice) : result BuildState :=
  match choices with
  | [] => Ok st
  | choice :: choices' =>
      st' ← processChoice ast key currentNode currentKnot st choice;
      processChoices ast key currentNode currentKnot st' choices'
  end.

(** One turn of [for len(queue) > 0] on the dequeued pointer [key]; [st]
    already has the shortened queue. *)
Definition processNode (ast : Script) (key : string) (st : BuildState)
  : result BuildState :=
  currentNode ← orPanic (bsGraph st !! key);
  currentKnot ← orPanic (Knots ast !! KnotName currentNode);
  processChoices ast key currentNode currentKnot st (Choices currentKnot).

(** [queue = queue[1:]]. *)
Definition dequeued (st : BuildState) (queue : list string) : BuildState :=
  {| bsGraph := bsGraph st; bsQueue := queue; bsVisited := bsVisited st |}.

(** The [for] loop, at most [fuel] turns; [None] when they do not suffice. *)
Fixpoint traverse (fuel : nat) (ast : Script) (st : BuildState)
  : option (result BuildState) :=
  match bsQueue st with
  | [] => Some (Ok st)
  | key :: queue =>
      match fuel with
      | O => None
      | S fuel' =>
          match processNode ast key (dequeued st queue) with
          | Ok st' => traverse fuel' ast st'
          | Err msg => Some (Err msg)
          | Panic => Some Panic
          end
      end
  end.

(** The state in which the loop is entered. *)
Definition rootState (ast : Script) (indexKnot : Knot) : result BuildState :=
  rootNode ← createNode "index" indexKnot (initialState ast);
  let nodeID := generateNodeID (KnotName rootNode) (State rootNode) in
  Ok {| bsGraph := {[nodeID := rootNode]}; bsQueue := [nodeID];
        bsVisited := {[nodeID]} |}.

Definition buildGraph (fuel : nat) (ast : Script)
  : option (result StoryGraph) :=
  match Knots ast !! "index" with
  | None => Some (Err "script must contain a starting knot named 'index'")
  | Some indexKnot =>
      match rootState ast indexKnot with
      | Ok st =>
          match traverse fuel ast st with
          | None => None
          | Some (Ok st') =>
              Some (Ok {| graphMetadata := ∅; Graph := bsGraph st' |})
          | Some (Err msg) => Some (Err msg)
          | Some Panic => Some Panic
          end
      | Err msg => Some (Err msg)
      | Panic => Some Panic
      end
  end.

(** ** Test scripts of the repository *)

Definition choice0 : Choice :=
  {| Text := ""; Condition := ""; StateChanges := []; TargetKnot := "";
     Stitch := "" |}.

Definition knot0 (name : string) : Knot :=
  {| Name := name; Scene := ""; Body := []; Choices := []; IsEnd := false |}.

(** [TestSimpleCompilation]. *)
Definition simpleScript : Script :=
  {| Metadata := {[ "title" := "My Story" ]};
     GlobalStates := {[ "has_key" := false ]};
     LocalStates := ∅;
     Knots :=
       {[ "index" :=
            {| Name := "index"; Scene := "";
               Body := [ {| tbCondition := "";
                            tbContent := "The door is locked." |} ];
               Choices :=
                 [ {| Text := "Look for a key.";
                      Condition := "has_key == false";
                      StateChanges := ["has_key = true"];
                      TargetKnot := ""; Stitch := "" |};
                   {| Text := "Open the door.";
                      Condition := "has_key == true";
                      StateChanges := []; TargetKnot := "victory";
                      Stitch := "" |} ];
               IsEnd := false |};
          "victory" :=
            {| Name := "victory"; Scene := "";
               Body := [ {| tbCondition := "";
                            tbContent := "You opened the door!" |} ];
               Choices := []; IsEnd := true |} ]} |}.

(** [TestFlagState]. *)
Definition flagScript : Script :=
  {| Metadata := ∅;
     GlobalStates := {[ "major_event" := true ]};
     LocalStates := ∅;
     Knots :=
       {[ "index" :=
            {| Name := "index"; Scene := ""; Body := [];
               Choices :=
                 [ {| Text := "Do the thing."; Condition := "";
                      StateChanges := ["major_event = true"];
                      TargetKnot := "next"; Stitch := "" |} ];
               IsEnd := false |};
          "next" :=
            {| Name := "next"; Scene := "";
               Body := [ {| tbCondition := "";
                            tbContent := "You did the thing." |} ];
               Choices :=
                 [ {| Text := "Try to undo it."; Condition := "";
                      StateChanges := ["major_event = false"];
                      TargetKnot := "index"; Stitch := "" |} ];
               IsEnd := false |} ]} |}.

(** [TestLocalState]. *)
Definition localScript : Script :=
  {| Metadata := ∅;
     GlobalStates := {[ "global_quest_active" := false ]};
     LocalStates := {[ "has_room_key" := true ]};
     Knots :=
       {[ "index" :=
            {| Name := "index"; Scene := ""; Body := [];
               Choices :=
                 [ {| Text := "Enter the bedroom"; Condition := "";
                      StateChanges := []; TargetKnot := "room1";
                      Stitch := "" |} ];
               IsEnd := false |};
          "room1" :=
            {| Name := "room1"; Scene := "bedroom"; Body := [];
               Choices :=
                 [ {| Text := "Pick up key."; Condition := "";
                      StateChanges := ["has_room_key = true"];
                      TargetKnot := ""; Stitch := "" |};
                   {| Text := "Leave room."; Condition := "";
                      StateChanges := []; TargetKnot := "hallway";
                      Stitch := "" |} ];
               IsEnd := false |};
          "hallway" :=
            {| Name := "hallway"; Scene := "corridor"; Body := [];
               Choices :=
                 [ {| Text := "Go back."; Condition := "";
                      StateChanges := []; TargetKnot := "room1";
                      Stitch := "" |} ];
               IsEnd := false |} ]} |}.

(** [TestConditionalText]. *)
Definition conditionalScript : Script :=
  {| Metadata := ∅;
     GlobalStates := {[ "power_on" := false ]};
     LocalStates := ∅;
     Knots :=
       {[ "index" :=
            {| Name := "index"; Scene := "";
               Body :=
                 [ {| tbCondition := "power_on == false";
                      tbContent := "The room is dark." |};
                   {| tbCondition := "power_on == true";
                      tbContent := "The lights are on." |} ];
               Choices :=
                 [ {| Text := "Flip switch."; Condition := "";
                      StateChanges := ["power_on = true"];
                      TargetKnot := ""; Stitch := "" |} ];
               IsEnd := false |} ]} |}.

(** [TestUnreachableStatePruning]. *)
Definition pruningScript : Script :=
  {| Metadata := ∅;
     GlobalStates := {[ "has_key" := false ]};
     LocalStates := ∅;
     Knots :=
       {[ "index" :=
            {| Name := "index"; Scene := ""; Body := [];
               Choices :=
                 [ {| Text := "Get the key."; Condition := "";
                      StateChanges := ["has_key = true"];
                      TargetKnot := "door"; Stitch := "" |} ];
               IsEnd := false |};
          "door" :=
            {| Name := "door"; Scene := "";
               Body := [ {| tbCondition := "";
                            tbContent := "This door requires a key." |} ];
               Choices :=
                 [ {| Text := "Open it."; Condition := "has_key == true";
                      StateChanges := []; TargetKnot := "victory";
                      Stitch := "" |} ];
               IsEnd := false |};
          "victory" :=
            {| Name := "victory"; Scene := "";
               Body := [ {| tbCondition := ""; tbContent := "You win." |} ];
               Choices := []; IsEnd := true |} ]} |}.

(** ** Further scripts *)

(** A local-anchor jump, as in story.biff ([-> .gnome_intro]): the unit
    named by the anchor lies in another scene. *)
Definition stitchScript : Script :=
  {| Metadata := ∅;
     GlobalStates := ∅;
     LocalStates := {[ "seen" := true ]};
     Knots :=
       {[ "index" :=
            {| Name := "index"; Scene := "garden"; Body := [];
               Choices :=
                 [ {| Text := "Look around."; Condition := "";
                      StateChanges := ["seen = true"];
                      TargetKnot := ""; Stitch := "" |};
                   {| Text := "Inspect the fountain."; Condition := "";
                      StateChanges := []; TargetKnot := "";
                      Stitch := ".side" |} ];
               IsEnd := false |};
          "side" :=
            {| Name := "side"; Scene := "fountain"; Body := [];
               Choices := []; IsEnd := false |} ]} |}.

(** A mutation without "=". *)
Definition malformedScript : Script :=
  {| Metadata := ∅; GlobalStates := ∅; LocalStates := ∅;
     Knots :=
       {[ "index" :=
            {| Name := "index"; Scene := ""; Body := [];
               Choices :=
                 [ {| Text := "Take it."; Condition := "";
                      StateChanges := ["has_key"];
                      TargetKnot := ""; Stitch := "" |} ];
               IsEnd := false |} ]} |}.

(** A choice whose destination is not a unit, and a script without entry
    unit. *)
Definition danglingScript : Script :=
  {| Metadata := ∅; GlobalStates := ∅; LocalStates := ∅;
     Knots :=
       {[ "index" :=
            {| Name := "index"; Scene := ""; Body := [];
               Choices :=
                 [ {| Text := "Leave."; Condition := "";
                      StateChanges := []; TargetKnot := "nowhere";
                      Stitch := "" |} ];
               IsEnd := false |} ]} |}.

Definition headlessScript : Script :=
  {| Metadata := ∅; GlobalStates := ∅; LocalStates := ∅;
     Knots := {[ "start" := knot0 "start" ]} |}.

(** Two mutations of undeclared variables, and unit and variable names
    that contain the separator of the identity: the pairs (a, {b|c}) and
    (a|b, {c}) get the same identity. *)
Definition ambiguousScript : Script :=
  {| Metadata := ∅; GlobalStates := ∅; LocalStates := ∅;
     Knots :=
       {[ "index" :=
            {| Name := "index"; Scene := ""; Body := [];
               Choices :=
                 [ {| Text := "one"; Condition := "";
                      StateChanges := ["b|c = true"];
                      TargetKnot := "a"; Stitch := "" |};
                   {| Text := "two"; Condition := "";
                      StateChanges := ["c = true"];
                      TargetKnot := "a|b"; Stitch := "" |} ];
               IsEnd := false |};
          "a" := knot0 "a";
          "a|b" := knot0 "a|b" ]} |}.

(** The same ambiguity around a flag. *)
Definition ambiguousFlagScript : Script :=
  {| Metadata := ∅; GlobalStates := {[ "v" := true ]}; LocalStates := ∅;
     Knots :=
       {[ "index" :=
            {| Name := "index"; Scene := ""; Body := [];
               Choices :=
                 [ {| Text := "one"; Condition := ""; StateChanges := [];
                      TargetKnot := "x|v=true,v"; Stitch := "" |};
                   {| Text := "two"; Condition := "";
                      StateChanges := ["v = true"];
                      TargetKnot := ""; Stitch := "" |};
                   {| Text := "three"; Condition := "";
                      StateChanges := ["v|v = false"];
                      TargetKnot := "x"; Stitch := "" |} ];
               IsEnd := false |};
          "x" := knot0 "x";
          "x|v=true,v" := knot0 "x|v=true,v" ]} |}.

(** The same ambiguity around a local. *)
Definition ambiguousLocalScript : Script :=
  {| Metadata := ∅; GlobalStates := ∅; LocalStates := {[ "l" := true ]};
     Knots :=
       {[ "index" :=
            {| Name := "index"; Scene := "A"; Body := [];
               Choices :=
                 [ {| Text := "one"; Condition := ""; StateChanges := [];
                      TargetKnot := "mid"; Stitch := "" |};
                   {| Text := "two"; Condition := ""; StateChanges := [];
                      TargetKnot := "other"; Stitch := "" |} ];
               IsEnd := false |};
          "mid" :=
            {| Name := "mid"; Scene := "B"; Body := [];
               Choices :=
                 [ {| Text := "take"; Condition := "";
                      StateChanges := ["l = true"; "l|l = false"];
                      TargetKnot := "x"; Stitch := "" |} ];
               IsEnd := false |};
          "other" :=
            {| Name := "other"; Scene := "A"; Body := [];
               Choices :=
                 [ {| Text := "go"; Condition := ""; StateChanges := [];
                      TargetKnot := "x|l=true,l"; Stitch := "" |} ];
               IsEnd := false |};
          "x" :=
            {| Name := "x"; Scene := "B"; Body := []; Choices := [];
               IsEnd := false |};
          "x|l=true,l" :=
            {| Name := "x|l=true,l"; Scene := "A"; Body := [];
               Choices := []; IsEnd := false |} ]} |}.

(** ** Names without operator or white-space bytes *)

Definition isASCII (c : ascii) : bool :=
  match c with
  | Ascii _ _ _ _ _ _ _ high => negb high
  end.

Definition nameByte (c : ascii) : bool :=
  isASCII c && negb (asciiSpace c) && negb (bool_decide (c = "="%char))
  && negb (bool_decide (c = "!"%char)) && negb (bool_decide (c = "&"%char)).

Fixpoint allBytes (P : ascii → bool) (s : string) : bool :=
  match s with
  | "" => true
  | String c s' => P c && allBytes P s'
  end.

(** A variable name as the authoring language writes it: ASCII bytes that
    are neither white space nor one of the operator bytes [=], [!], [&]. *)
Definition plainName (name : string) : Prop := allBytes nameByte name = true.

(** ** Reachability *)

(** One choice taken in state [state] of unit [knotName]: its condition is
    empty or holds, its mutations apply, its destination resolves to an
    existing unit, and the locals are purged when the scene changes. *)
Inductive choiceLeads (ast : Script) (knotName : string)
    (state : gmap string bool) (currentKnot : Knot) (choice : Choice)
  : string → gmap string bool → Prop :=
  | choiceLeads_intro nextState targetKnotName targetKnot :
      Condition choice = ""
      ∨ evaluateCondition (Condition choice) state = Some true →
      applyStateChanges state choice ast = Some nextState →
      resolveDestination knotName choice = Some targetKnotName →
      Knots ast !! targetKnotName = Some targetKnot →
      choiceLeads ast knotName state currentKnot choice targetKnotName
        (purgeLocals ast currentKnot targetKnot nextState).

(** The (unit, state) pairs that a finite sequence of such choices
    produces from the entry unit with every declared variable [false]. *)
Inductive reachable (ast : Script) : string → gmap string bool → Prop :=
  | reachable_entry indexKnot :
      Knots ast !! "index" = Some indexKnot →
      reachable ast "index" (initialState ast)
  | reachable_choice knotName state currentKnot choice
        targetKnotName nextState :
      reachable ast knotName state →
      Knots ast !! knotName = Some currentKnot →
      choice ∈ Choices currentKnot →
      choiceLeads ast knotName state currentKnot choice
        targetKnotName nextState →
      reachable ast targetKnotName nextState.

(** No two reachable pairs share an identity. *)
Definition distinctIdentities (ast : Script) : Prop :=
  ∀ knotName1 state1 knotName2 state2,
    reachable ast knotName1 state1 → reachable ast knotName2 state2 →
    generateNodeID knotName1 state1 = generateNodeID knotName2 state2 →
    knotName1 = knotName2 ∧ state1 = state2.

(** ** Structural errors *)

(** The choice is condition-satisfied in [state] and its resolved
    destination [targetKnotName] is not a unit of the script. *)
Definition absentDestination (ast : Script) (knotName : string)
    (state : gmap string bool) (choice : Choice) (targetKnotName : string)
  : Prop :=
  (Condition choice = ""
   ∨ evaluateCondition (Condition choice) state = Some true)
  ∧ resolveDestination knotName choice = Some targetKnotName
  ∧ Knots ast !! targetKnotName = None.

(** There is no entry unit, or some reachable pair has such a choice. *)
Definition structuralError (ast : Script) : Prop :=
  Knots ast !! "index" = None
  ∨ ∃ knotName state currentKnot choice targetKnotName,
      reachable ast knotName state
      ∧ Knots ast !! knotName = Some currentKnot
      ∧ choice ∈ Choices currentKnot
      ∧ absentDestination ast knotName state choice targetKnotName.

(** ** Scripts *)

(** The declared variables: global, flag and local. *)
Definition declared (ast : Script) : gset string :=
  dom (GlobalStates ast) ∪ dom (LocalStates ast).

(** The variable that [applyChange] assigns on [change]. *)
Definition mutatedName (change : string) : string :=
  TrimSpace (default "" (Split change "=" !! 0%nat)).

Definition allChoices (ast : Script) : list Choice :=
  knot ← (map_to_list (Knots ast)).*2; Choices knot.

Definition allChanges (ast : Script) : list string :=
  choice ← allChoices ast; StateChanges choice.

(** Every mutation of the script assigns a declared variable. *)
Definition declaresMutations (ast : Script) : Prop :=
  Forall (λ change, mutatedName change ∈ declared ast) (allChanges ast).

(** Every mutation of the script has the form [name = value]. *)
Definition wellFormedMutations (ast : Script) : Prop :=
  Forall (λ change, Contains change "=" = true) (allChanges ast).

(** ** A bound on the traversal *)

(** Every variable a state vector of the script can hold. *)
Definition variables (ast : Script) : gset string :=
  declared ast ∪ list_to_set (mutatedName <$> allChanges ast).

Fixpoint allStates (names : list string) : list (gmap string bool) :=
  match names with
  | [] => [∅]
  | name :: names' =>
      allStates names'
      ++ (insert name true <$> allStates names')
      ++ (insert name false <$> allStates names')
  end.

(** The identities the traversal can register, and the number of turns
    of the loop that always suffices. *)
Definition identities (ast : Script) : gset string :=
  list_to_set
    (knotName ← (map_to_list (Knots ast)).*1;
     generateNodeID knotName <$> allStates (elements (variables ast))).

Definition fuelBound (ast : Script) : nat := S (size (identities ast)).

(** ** Invariants of the traversal *)

(** The node [createNode] returns, given the content it selects. *)
Definition newNode (knotName : string) (knot : Knot)
    (state : gmap string bool) (content : string) : StoryNode :=
  {| KnotName := knotName; nodeScene := Scene knot; State := state;
     Content := content; Edges := []; nodeIsEnd := IsEnd knot;
     nodeStitch := "" |}.

(** The cell under [key] holds the node that is being processed. *)
Definition currentAt (st : BuildState) (key knotName : string)
    (state : gmap string bool) : Prop :=
  ∃ node, bsGraph st !! key = Some node
          ∧ KnotName node = knotName ∧ State node = state.

(** Every identity an edge refers to is a key of the graph. *)
Definition noDanglingEdges (graph : gmap string StoryNode) : Prop :=
  ∀ id node edge,
    graph !! id = Some node → edge ∈ Edges node →
    is_Some (graph !! TargetNodeID edge).

(** The edge the builder makes for a choice that leads somewhere. *)
Definition edgeFor (choice : Choice) (targetKnotName : string)
    (nextState : gmap string bool) : StoryEdge :=
  {| edgeText := Text choice;
     TargetNodeID := generateNodeID targetKnotName nextState;
     edgeStitch := Stitch choice |}.

(** [edge] was built from a choice of the unit of [node], taken in the
    state of [node]. *)
Definition edgeFromChoice (ast : Script) (node : StoryNode)
    (edge : StoryEdge) : Prop :=
  ∃ currentKnot choice targetKnotName nextState,
    Knots ast !! KnotName node = Some currentKnot
    ∧ choice ∈ Choices currentKnot
    ∧ choiceLeads ast (KnotName node) (State node) currentKnot choice
        targetKnotName nextState
    ∧ edge = edgeFor choice targetKnotName nextState.

(** Every one of [choices] was followed without error from the node
    under [id], and the node has its edge, and the target of that edge,
    for every one of them that leads somewhere. *)
Definition explored (ast : Script) (graph : gmap string StoryNode)
    (id : string) (choices : list Choice) : Prop :=
  ∀ node currentKnot choice,
    graph !! id = Some node →
    Knots ast !! KnotName node = Some currentKnot →
    choice ∈ choices →
    (∃ f, followChoice ast (KnotName node) (State node) currentKnot choice
          = Ok f)
    ∧ ∀ targetKnotName nextState,
        choiceLeads ast (KnotName node) (State node) currentKnot choice
          targetKnotName nextState →
        edgeFor choice targetKnotName nextState ∈ Edges node
        ∧ is_Some (graph !! generateNodeID targetKnotName nextState).

Definition fullyExplored (ast : Script) (graph : gmap string StoryNode)
    (id : string) : Prop :=
  ∀ node currentKnot,
    graph !! id = Some node →
    Knots ast !! KnotName node = Some currentKnot →
    explored ast graph id (Choices currentKnot).

Record traversalInv (ast : Script) (st : BuildState) : Prop := {
  inv_visited : dom (bsGraph st) = bsVisited st;
  inv_queue : ∀ key, key ∈ bsQueue st → is_Some (bsGraph st !! key);
  inv_key : ∀ id node,
    bsGraph st !! id = Some node →
    id = generateNodeID (KnotName node) (State node);
  inv_knot : ∀ id node,
    bsGraph st !! id = Some node →
    ∃ knot, Knots ast !! KnotName node = Some knot
            ∧ nodeScene node = Scene knot;
  inv_reachable : ∀ id node,
    bsGraph st !! id = Some node →
    reachable ast (KnotName node) (State node);
  inv_edges : ∀ id node edge,
    bsGraph st !! id = Some node → edge ∈ Edges node →
    edgeFromChoice ast node edge;
  inv_targets : noDanglingEdges (bsGraph st);
  inv_root :
    is_Some (bsGraph st !! generateNodeID "index" (initialState ast))
}.

(** The invariant between two turns of the outer loop: whatever has left
    the queue is fully explored. *)
Definition outerInv (ast : Script) (st : BuildState) : Prop :=
  traversalInv ast st
  ∧ ∀ id, id ∉ bsQueue st → fullyExplored ast (bsGraph st) id.

(** The invariant between two turns of the inner loop, [key] being the
    dequeued node and [choices] its choices handled so far. *)
Definition innerInv (ast : Script) (key knotName : string)
    (state : gmap string bool) (choices : list Choice) (st : BuildState)
  : Prop :=
  traversalInv ast st
  ∧ currentAt st key knotName state
  ∧ explored ast (bsGraph st) key choices
  ∧ ∀ id, id ≠ key → id ∉ bsQueue st → fullyExplored ast (bsGraph st) id.

(** The accounting behind termination: [processed] are the keys already
    dequeued. *)
Record boundInv (ast : Script) (processed : gset string) (st : BuildState)
  : Prop := {
  bound_visited : bsVisited st = processed ∪ list_to_set (bsQueue st);
  bound_NoDup : NoDup (bsQueue st);
  bound_disjoint : ∀ key, key ∈ bsQueue st → key ∉ processed;
  bound_identities : bsVisited st ⊆ identities ast;
  bound_states : ∀ id node,
    bsGraph st !! id = Some node → dom (State node) ⊆ variables ast
}.

(** The cell under the identity of the entry pair holds the entry pair:
    the unit [index] with every declared variable [false]. *)
Definition entryNode (ast : Script) (graph : gmap string StoryNode) : Prop :=
  ∃ node, graph !! generateNodeID "index" (initialState ast) = Some node
          ∧ KnotName node = "index" ∧ State node = initialState ast.

(** ** Variable classes *)

(** [GlobalStates] maps a flag to [true]; the keys of [LocalStates] are
    the scene-scoped variables. *)
Definition isFlag (ast : Script) (name : string) : Prop :=
  GlobalStates ast !! name = Some true.

Definition isLocal (ast : Script) (name : string) : Prop :=
  is_Some (LocalStates ast !! name).

Global Instance isFlag_dec ast name : Decision (isFlag ast name) :=
  decide (GlobalStates ast !! name = Some true).

Global Instance isLocal_dec ast name : Decision (isLocal ast name) :=
  decide (is_Some (LocalStates ast !! name)).

(** The value that [applyChange] assigns on [change], when [change] has
    a second component. *)
Definition mutatedValue (change : string) : option bool :=
  p1 ← Split change "=" !! 1%nat; Some (bool_decide (TrimSpace p1 = "true")).

(** ** Checks on a run of the builder *)

(** The keys of the returned graph. *)
Definition graphKeys (r : option (result StoryGraph)) : option (gset string) :=
  match r with
  | Some (Ok g) => Some (dom (Graph g))
  | _ => None
  end.

(** The content of the node under [id]. *)
Definition graphContent (r : option (result StoryGraph)) (id : string)
  : option string :=
  match r with
  | Some (Ok g) => Content <$> Graph g !! id
  | _ => None
  end.

(** The run returned a graph every node of which passes [check]. *)
Definition checkNodes (r : option (result StoryGraph))
    (check : StoryNode → bool) : bool :=
  match r with
  | Some (Ok g) => bool_decide (map_Forall (λ _ node, check node = true) (Graph g))
  | _ => false
  end.

(** The run returned a graph in which the node under [id] has an [i]-th
    edge, the target of that edge is a key, and the three pass [check]. *)
Definition checkEdge (r : option (result StoryGraph)) (id : string) (i : nat)
    (check : StoryNode → StoryEdge → StoryNode → bool) : bool :=
  match r with
  | Some (Ok g) =>
      match Graph g !! id with
      | Some node =>
          match Edges node !! i with
          | Some edge =>
              match Graph g !! TargetNodeID edge with
              | Some node' => check node edge node'
              | None => false
              end
          | None => false
          end
      | None => false
      end
  | _ => false
  end.

(** * Properties *)

(** ** Strings *)

Section string_facts.

Implicit Types (s t sep : string) (c d : ascii).

Lemma Split_go_length sep skip s : 1 ≤ length (Split_go sep skip s).
Proof.
  revert skip. induction s as [|c s IH]; intros skip; cbn [Split_go]; [simpl; lia|].
  destruct skip as [|k]; [|apply IH].
  destruct (HasPrefix (String c s) sep); simpl; [lia|].
  specialize (IH 0%nat). destruct (Split_go sep 0 s); simpl in *; lia.
Qed.

Lemma push_front_length c (ps : list string) :
  ps ≠ [] → length (push_front c ps) = length ps.
Proof. by destruct ps. Qed.

Lemma Split_Contains c sep s :
  Contains s (String c sep) = true → 2 ≤ length (Split s (String c sep)).
Proof.
  unfold Split. induction s as [|d s IH]; [done|].
  cbn [Contains Split_go]. destruct (HasPrefix (String d s) (String c sep)).
  - intros _. pose proof (Split_go_length (String c sep)
      (String.length (String c sep) - 1) s). simpl in *. lia.
  - intros H. simpl in H. specialize (IH H).
    destruct (Split_go (String c sep) 0 s); simpl in *; lia.
Qed.

Lemma Split_not_Contains sep s :
  Contains s sep = false → Split s sep = [s].
Proof.
  unfold Split. induction s as [|d s IH]; [done|].
  cbn [Contains Split_go]. intros [H1 H2]%orb_false_iff.
  rewrite H1, (IH H2). done.
Qed.

Lemma Split_length_Contains c sep s :
  2 ≤ length (Split s (String c sep)) ↔ Contains s (String c sep) = true.
Proof.
  split; [|apply Split_Contains].
  destruct (Contains s (String c sep)) eqn:E; [done|].
  rewrite (Split_not_Contains _ _ E). simpl. lia.
Qed.

Lemma Split_lookup_0 sep s : is_Some (Split s sep !! 0%nat).
Proof.
  apply lookup_lt_is_Some. pose proof (Split_go_length sep 0 s).
  unfold Split. lia.
Qed.

Lemma Split_lookup_1 c sep s :
  is_Some (Split s (String c sep) !! 1%nat) ↔
  Contains s (String c sep) = true.
Proof. by rewrite lookup_lt_is_Some, <-Split_length_Contains. Qed.

End string_facts.

Section trim_facts.

Implicit Types (s t : string) (c d e : ascii).

Lemma isSpace2_ASCII_l c d : isASCII c = true → isSpace2 c d = false.
Proof.
  intros H. unfold isSpace2. case_bool_decide; [subst; discriminate|done].
Qed.

Lemma isSpace2_ASCII_r c d : isASCII d = true → isSpace2 c d = false.
Proof.
  intros H. unfold isSpace2.
  repeat case_bool_decide; subst; try discriminate; done.
Qed.

Lemma isSpace3_ASCII_l c d e : isASCII c = true → isSpace3 c d e = false.
Proof.
  intros H. unfold isSpace3.
  destruct (decide (c = "225"%char)) as [->|]; [discriminate|].
  destruct (decide (c = "226"%char)) as [->|]; [discriminate|].
  destruct (decide (c = "227"%char)) as [->|]; [discriminate|].
  by rewrite !(bool_decide_eq_false_2 (c = _)) by done.
Qed.

Lemma isSpace3_ASCII_r c d e : isASCII d = true → isSpace3 c d e = false.
Proof.
  intros H. unfold isSpace3.
  destruct (decide (d = "154"%char)) as [->|]; [discriminate|].
  destruct (decide (d = "128"%char)) as [->|]; [discriminate|].
  destruct (decide (d = "129"%char)) as [->|]; [discriminate|].
  rewrite !(bool_decide_eq_false_2 (d = _)) by done.
  by rewrite !andb_false_r.
Qed.

(** A string whose second byte is ASCII is not one white-space rune. *)
Lemma isSpaceRune_ASCII_2 c d s :
  isASCII d = true → isSpaceRune (String c (String d s)) = false.
Proof.
  intros H. simpl. destruct s as [|e [|]]; [|simpl|done];
    auto using isSpace2_ASCII_r, isSpace3_ASCII_r.
Qed.

Lemma TrimLeftSpace_ASCII c s :
  isASCII c = true → asciiSpace c = false →
  TrimLeftSpace (String c s) = String c s.
Proof.
  intros H1 H2. cbn [TrimLeftSpace]. rewrite H2.
  destruct s as [|d [|e s]]; [done| |];
    by rewrite ?isSpace2_ASCII_l, ?isSpace3_ASCII_l by done.
Qed.

(** Right-trimming leaves a string alone when it ends in [t], a non-empty
    ASCII-led text that is itself right-trimmed, and all bytes before [t]
    are ASCII. *)
Lemma TrimRightSpace_app_ASCII s d t :
  allBytes isASCII s = true → isASCII d = true →
  TrimRightSpace (String d t) = String d t →
  TrimRightSpace (s +:+ String d t) = s +:+ String d t.
Proof.
  intros Hs Hd Ht. induction s as [|c s IH]; [done|].
  simpl in Hs. apply andb_true_iff in Hs as [Hc Hs].
  change (String c s +:+ String d t) with (String c (s +:+ String d t)).
  cbn [TrimRightSpace]. rewrite (IH Hs).
  destruct s as [|c' s].
  - change ("" +:+ String d t) with (String d t).
    by rewrite isSpaceRune_ASCII_2.
  - change (String c' s +:+ String d t) with (String c' (s +:+ String d t)).
    simpl in Hs. apply andb_true_iff in Hs as [Hc' _].
    by rewrite isSpaceRune_ASCII_2.
Qed.

Lemma nameByte_ASCII c : nameByte c = true → isASCII c = true.
Proof. unfold nameByte. rewrite !andb_true_iff. tauto. Qed.

Lemma nameByte_not_space c : nameByte c = true → asciiSpace c = false.
Proof.
  unfold nameByte. rewrite !andb_true_iff, !negb_true_iff. tauto.
Qed.

Lemma allBytes_impl (P Q : ascii → bool) s :
  (∀ c, P c = true → Q c = true) → allBytes P s = true → allBytes Q s = true.
Proof.
  intros HPQ. induction s as [|c s IH]; [done|]. simpl.
  rewrite !andb_true_iff. intros [??]. auto.
Qed.

(** [TrimSpace] on the texts that occur when a comparison of a plain name
    is evaluated. *)
Lemma TrimSpace_plain_app name d t :
  plainName name → name ≠ "" → isASCII d = true →
  TrimRightSpace (String d t) = String d t →
  TrimSpace (name +:+ String d t) = name +:+ String d t.
Proof.
  intros Hn Hne Hd Ht. unfold TrimSpace.
  destruct name as [|c name]; [done|].
  pose proof Hn as Hn'. unfold plainName in Hn'. simpl in Hn'.
  apply andb_true_iff in Hn' as [Hc _].
  change (String c name +:+ String d t)
    with (String c (name +:+ String d t)).
  rewrite TrimLeftSpace_ASCII
    by eauto using nameByte_ASCII, nameByte_not_space.
  change (String c (name +:+ String d t))
    with (String c name +:+ String d t).
  apply TrimRightSpace_app_ASCII; [|done..].
  eapply allBytes_impl; [apply nameByte_ASCII|done].
Qed.

Lemma TrimRightSpace_plain_space name :
  plainName name → TrimRightSpace (name +:+ " ") = name.
Proof.
  unfold plainName. induction name as [|c name IH]; [done|].
  cbn [allBytes]. intros [Hc Hn]%andb_true_iff.
  change (String c name +:+ " ") with (String c (name +:+ " ")).
  cbn [TrimRightSpace]. rewrite (IH Hn). cbv zeta.
  destruct name as [|c' name].
  - simpl. by rewrite nameByte_not_space.
  - simpl in Hn. apply andb_true_iff in Hn as [Hc' _].
    by rewrite isSpaceRune_ASCII_2 by eauto using nameByte_ASCII.
Qed.

Lemma TrimSpace_plain_space name :
  plainName name → TrimSpace (name +:+ " ") = name.
Proof.
  intros Hn. unfold TrimSpace. destruct name as [|c name]; [done|].
  pose proof Hn as Hn'. unfold plainName in Hn'. simpl in Hn'.
  apply andb_true_iff in Hn' as [Hc _].
  change (String c name +:+ " ") with (String c (name +:+ " ")).
  rewrite TrimLeftSpace_ASCII
    by eauto using nameByte_ASCII, nameByte_not_space.
  by apply (TrimRightSpace_plain_space (String c name)).
Qed.

End trim_facts.

(** ** The condition evaluator *)

Section evaluator_facts.

Implicit Types (s t name : string) (c d a : ascii)
  (state : gmap string bool).

Lemma Contains_app_no_byte a sep name t :
  allBytes (λ c, negb (bool_decide (c = a))) name = true →
  Contains (name +:+ t) (String a sep) = Contains t (String a sep).
Proof.
  induction name as [|c name IH]; [done|].
  cbn [allBytes]. intros [Hc Hn]%andb_true_iff.
  apply negb_true_iff, bool_decide_eq_false in Hc.
  change (String c name +:+ t) with (String c (name +:+ t)).
  cbn [Contains HasPrefix]. rewrite decide_False by done.
  by rewrite IH.
Qed.

Lemma Split_app_no_byte a sep name t p ps :
  allBytes (λ c, negb (bool_decide (c = a))) name = true →
  Split t (String a sep) = p :: ps →
  Split (name +:+ t) (String a sep) = (name +:+ p) :: ps.
Proof.
  intros Hn Ht. unfold Split in *.
  induction name as [|c name IH]; [done|].
  cbn [allBytes] in Hn. apply andb_true_iff in Hn as [Hc Hn].
  apply negb_true_iff, bool_decide_eq_false in Hc.
  change (String c name +:+ t) with (String c (name +:+ t)).
  cbn [Split_go HasPrefix]. rewrite decide_False by done.
  by rewrite (IH Hn).
Qed.

Lemma plainName_no_byte a name :
  a = "="%char ∨ a = "!"%char ∨ a = "&"%char →
  plainName name → allBytes (λ c, negb (bool_decide (c = a))) name = true.
Proof.
  intros Ha. apply allBytes_impl. intros c. unfold nameByte.
  rewrite !andb_true_iff. intros [[[[_ _] H1] H2] H3].
  by destruct Ha as [->|[->| ->]].
Qed.

(** What one conjunct evaluates to, once its pieces are known. *)
Lemma evaluatePart_eq part p v0 v1 vs state :
  TrimSpace part = p → Contains p "!=" = false → Contains p "==" = true →
  Split p "==" = v0 :: v1 :: vs →
  evaluatePart part state =
    Some (eqb (readState state (TrimSpace v0))
              (bool_decide (TrimSpace v1 = "true"))).
Proof.
  intros Hp Hne Heq Hs. unfold evaluatePart. rewrite Hp, Hne, Heq, Hs. done.
Qed.

Lemma evaluatePart_ne part p v0 v1 vs state :
  TrimSpace part = p → Contains p "!=" = true →
  Split p "!=" = v0 :: v1 :: vs →
  evaluatePart part state =
    Some (negb (eqb (readState state (TrimSpace v0))
                    (bool_decide (TrimSpace v1 = "true")))).
Proof.
  intros Hp Hne Hs. unfold evaluatePart. rewrite Hp, Hne, Hs. done.
Qed.

(** A comparison of a plain name with a literal. *)
Lemma evaluateCondition_plain_true name state :
  plainName name →
  evaluateCondition (name +:+ " == true") state = Some (readState state name)
  ∧ evaluateCondition (name +:+ " != true") state = Some (negb (readState state name)).
Proof.
  intros Hn. destruct name as [|c name].
  { split; cbv -[readState]; by destruct (readState state ""). }
  set (n := String c name) in *. assert (n ≠ "") as Hne by done.
  clearbody n. unfold evaluateCondition.
  rewrite !Split_not_Contains
    by (by rewrite (Contains_app_no_byte "&")
          by (apply plainName_no_byte; auto)).
  cbn [evaluateParts]. split.
  - erewrite evaluatePart_eq with (v0 := n +:+ " ") (v1 := " true")
      (vs := []); [|done|..]; rewrite ?TrimSpace_plain_app by done.
    + rewrite TrimSpace_plain_space by done.
      by destruct (readState state n).
    + by rewrite (Contains_app_no_byte "!")
        by (apply plainName_no_byte; auto).
    + by rewrite (Contains_app_no_byte "=")
        by (apply plainName_no_byte; auto).
    + by apply (Split_app_no_byte "=" "=" n _ " ");
        [apply plainName_no_byte; auto|].
  - erewrite evaluatePart_ne with (v0 := n +:+ " ") (v1 := " true")
      (vs := []); [|done|..]; rewrite ?TrimSpace_plain_app by done.
    + rewrite TrimSpace_plain_space by done.
      by destruct (readState state n).
    + by rewrite (Contains_app_no_byte "!")
        by (apply plainName_no_byte; auto).
    + by apply (Split_app_no_byte "!" "=" n _ " ");
        [apply plainName_no_byte; auto|].
Qed.

Lemma evaluateCondition_plain_false name state :
  plainName name →
  evaluateCondition (name +:+ " == false") state = Some (negb (readState state name))
  ∧ evaluateCondition (name +:+ " != false") state = Some (readState state name).
Proof.
  intros Hn. destruct name as [|c name].
  { split; cbv -[readState]; by destruct (readState state ""). }
  set (n := String c name) in *. assert (n ≠ "") as Hne by done.
  clearbody n. unfold evaluateCondition.
  rewrite !Split_not_Contains
    by (by rewrite (Contains_app_no_byte "&")
          by (apply plainName_no_byte; auto)).
  cbn [evaluateParts]. split.
  - erewrite evaluatePart_eq with (v0 := n +:+ " ") (v1 := " false")
      (vs := []); [|done|..]; rewrite ?TrimSpace_plain_app by done.
    + rewrite TrimSpace_plain_space by done.
      by destruct (readState state n).
    + by rewrite (Contains_app_no_byte "!")
        by (apply plainName_no_byte; auto).
    + by rewrite (Contains_app_no_byte "=")
        by (apply plainName_no_byte; auto).
    + by apply (Split_app_no_byte "=" "=" n _ " ");
        [apply plainName_no_byte; auto|].
  - erewrite evaluatePart_ne with (v0 := n +:+ " ") (v1 := " false")
      (vs := []); [|done|..]; rewrite ?TrimSpace_plain_app by done.
    + rewrite TrimSpace_plain_space by done.
      by destruct (readState state n).
    + by rewrite (Contains_app_no_byte "!")
        by (apply plainName_no_byte; auto).
    + by apply (Split_app_no_byte "!" "=" n _ " ");
        [apply plainName_no_byte; auto|].
Qed.

Lemma evaluatePart_total part state : is_Some (evaluatePart part state).
Proof.
  unfold evaluatePart.
  destruct (Contains (TrimSpace part) "!=") eqn:Hne.
  - destruct (Split_lookup_0 "!=" (TrimSpace part)) as [v0 ->].
    apply Split_lookup_1 in Hne as [v1 ->]. by eexists.
  - destruct (Contains (TrimSpace part) "==") eqn:Heq; [|by eexists].
    destruct (Split_lookup_0 "==" (TrimSpace part)) as [v0 ->].
    apply Split_lookup_1 in Heq as [v1 ->]. by eexists.
Qed.

Lemma evaluateParts_total parts state : is_Some (evaluateParts parts state).
Proof.
  induction parts as [|part parts IH]; [by eexists|]. simpl.
  destruct (evaluatePart_total part state) as [[] ->]; [done|by eexists].
Qed.

Lemma evaluateCondition_total condition state :
  is_Some (evaluateCondition condition state).
Proof. apply evaluateParts_total. Qed.

Lemma evaluatePart_ext part state1 state2 :
  (∀ name, readState state1 name = readState state2 name) →
  evaluatePart part state1 = evaluatePart part state2.
Proof.
  intros H. unfold evaluatePart.
  destruct (Contains _ "!="); [|destruct (Contains _ "=="); [|done]];
    (destruct (Split _ _ !! 0%nat); simpl; [|done]);
    (destruct (Split _ _ !! 1%nat); simpl; [|done]); by rewrite H.
Qed.

Lemma evaluateCondition_ext condition state1 state2 :
  (∀ name, readState state1 name = readState state2 name) →
  evaluateCondition condition state1 = evaluateCondition condition state2.
Proof.
  intros H. unfold evaluateCondition.
  induction (Split condition "&&") as [|part parts IH]; [done|]. simpl.
  rewrite (evaluatePart_ext part state1 state2 H).
  by destruct (evaluatePart part state2) as [[]|].
Qed.

Lemma readState_insert_absent state name k :
  state !! name = None →
  readState (<[name := false]> state) k = readState state k.
Proof.
  intros H. unfold readState. destruct (decide (name = k)) as [->|].
  - by rewrite lookup_insert_eq, H.
  - by rewrite lookup_insert_ne.
Qed.

End evaluator_facts.

(** C9: a comparison that names a variable absent from the state vector is
    evaluated against [false], and the evaluator never fails: it returns a
    value on every condition and state; adding an absent variable with the
    value [false] changes the result of no condition; and for a plain name
    that is absent, [name == false] and [name != true] hold while
    [name == true] and [name != false] do not. *)
Theorem C9_absent_variable_reads_false
    (condition name : string) (state : gmap string bool)
    (Habsent : state !! name = None) :
  is_Some (evaluateCondition condition state)
  ∧ evaluateCondition condition (<[name := false]> state)
    = evaluateCondition condition state
  ∧ (plainName name →
     evaluateCondition (name +:+ " == false") state = Some true
     ∧ evaluateCondition (name +:+ " == true") state = Some false
     ∧ evaluateCondition (name +:+ " != true") state = Some true
     ∧ evaluateCondition (name +:+ " != false") state = Some false).
Proof.
  split; [apply evaluateCondition_total|]. split.
  - apply evaluateCondition_ext. intros k.
    by apply readState_insert_absent.
  - intros Hn.
    destruct (evaluateCondition_plain_true name state Hn) as [-> ->].
    destruct (evaluateCondition_plain_false name state Hn) as [-> ->].
    unfold readState. by rewrite Habsent.
Qed.

Lemma C9_witness :
  (∅ : gmap string bool) !! "has_key" = None
  ∧ evaluateCondition "has_key == false" ∅ = Some true
  ∧ evaluateCondition "has_key == true" ∅ = Some false.
Proof.
  split; [reflexivity|].
  destruct (C9_absent_variable_reads_false "x == true" "has_key" ∅)
    as (_ & _ & H); [reflexivity|].
  destruct H as (H1 & H2 & _); [reflexivity|]. exact (conj H1 H2).
Defined.

(** C8, as stated, fails: the evaluator returns [false] on the empty
    condition. *)
Lemma C8_counterexample :
  evaluateCondition "" ∅ = Some false
  ∧ ¬ (∀ state : gmap string bool, evaluateCondition "" state = Some true).
Proof.
  split; [reflexivity|]. intros H. specialize (H ∅). discriminate H.
Qed.

(** C8, amended: [evaluateCondition] itself returns [false] on the empty
    condition string, for every state; both callers test for the empty
    string before they call it, so that a choice with an empty condition
    is never skipped by the guard and a text block with an empty condition
    is selected in every state. *)
Theorem C8_empty_condition_guarded_by_callers (state : gmap string bool) :
  evaluateCondition "" state = Some false
  ∧ (∀ choice, Condition choice = "" → choiceSkipped choice state = Ok false)
  ∧ (∀ block body, tbCondition block = "" →
       selectContent (block :: body) state = Ok (tbContent block)).
Proof.
  split; [reflexivity|]. split.
  - intros choice H. unfold choiceSkipped. by rewrite decide_True.
  - intros block body H. cbn [selectContent]. by rewrite decide_True.
Qed.

Lemma C8_witness :
  choiceSkipped choice0 ∅ = Ok false
  ∧ selectContent [ {| tbCondition := ""; tbContent := "text" |} ] ∅
    = Ok "text".
Proof.
  destruct (C8_empty_condition_guarded_by_callers ∅) as (_ & H1 & H2).
  split; [apply H1; reflexivity|].
  apply (H2 {| tbCondition := ""; tbContent := "text" |} []); reflexivity.
Defined.

(** ** The state transition *)

Section transition_facts.

Implicit Types (state : gmap string bool) (ast : Script) (change : string).

Lemma applyChange_is_Some ast state change :
  is_Some (applyChange ast state change) ↔ Contains change "=" = true.
Proof.
  unfold applyChange. rewrite <-Split_lookup_1.
  destruct (Split_lookup_0 "=" change) as [p0 ->]. simpl.
  destruct (Split change "=" !! 1%nat) as [p1|]; simpl.
  - split; [by eexists|]. intros _. case_match; by eexists.
  - split; intros [? ?]; done.
Qed.

Lemma applyChanges_is_Some ast state changes :
  is_Some (applyChanges ast state changes) ↔
  Forall (λ change, Contains change "=" = true) changes.
Proof.
  revert state. induction changes as [|change changes IH]; intros state.
  { split; [constructor|by eexists]. }
  rewrite Forall_cons, <-(applyChange_is_Some ast state change).
  cbn [applyChanges]. destruct (applyChange ast state change) as [state'|].
  - rewrite IH. split; [by split; [eexists|]|tauto].
  - split; [by intros [? ?]|by intros [[? ?] _]].
Qed.

End transition_facts.

(** C10: [applyStateChanges] returns a state vector exactly when every
    mutation string of the choice contains "="; for a mutation string
    without "=" the split has no second component, the access to it is out
    of range, and the whole call panics. *)
Theorem C10_applyStateChanges_needs_equals_sign
    (currentState : gmap string bool) (choice : Choice) (ast : Script) :
  (is_Some (applyStateChanges currentState choice ast) ↔
   Forall (λ change, Contains change "=" = true) (StateChanges choice))
  ∧ (∀ change state, Contains change "=" = false →
       Split change "=" !! 1%nat = None ∧ applyChange ast state change = None)
  ∧ (∀ change, change ∈ StateChanges choice → Contains change "=" = false →
       applyStateChanges currentState choice ast = None).
Proof.
  split; [apply applyChanges_is_Some|]. split.
  - intros change state H. split.
    + apply eq_None_not_Some. rewrite Split_lookup_1. congruence.
    + apply eq_None_not_Some. rewrite applyChange_is_Some. congruence.
  - intros change Hin H. apply eq_None_not_Some.
    unfold applyStateChanges. rewrite applyChanges_is_Some, Forall_forall.
    intros Hall. specialize (Hall change Hin). congruence.
Qed.

Lemma C10_witness :
  applyStateChanges ∅
    {| Text := ""; Condition := ""; StateChanges := ["has_key"];
       TargetKnot := ""; Stitch := "" |} simpleScript = None
  ∧ is_Some (applyStateChanges ∅
    {| Text := ""; Condition := ""; StateChanges := ["has_key = true"];
       TargetKnot := ""; Stitch := "" |} simpleScript).
Proof.
  split.
  - eapply (C10_applyStateChanges_needs_equals_sign ∅ _ simpleScript);
      [apply list_elem_of_here|reflexivity].
  - apply (C10_applyStateChanges_needs_equals_sign ∅ _ simpleScript).
    repeat constructor.
Defined.

(** ** Canonical node identity *)

Section identity_facts.

Implicit Types (s t u knotName : string) (state : gmap string bool)
  (keys ks : list string).

Local Abbreviation bytes := String.list_ascii_of_string.

Lemma bytes_app s t : bytes (s +:+ t) = bytes s ++ bytes t.
Proof. induction s as [|c s IH]; [done|]. simpl. by rewrite <-IH. Qed.

Lemma bytes_inj s t : bytes s = bytes t → s = t.
Proof.
  intros H. rewrite <-(String.string_of_list_ascii_of_string s),
    <-(String.string_of_list_ascii_of_string t). by rewrite H.
Qed.

Lemma bytes_Join_snoc (xs : list string) x sep :
  bytes (Join (xs ++ [x]) sep) =
    match xs with
    | [] => bytes x
    | _ => bytes (Join xs sep) ++ bytes sep ++ bytes x
    end.
Proof.
  unfold Join. induction xs as [|y ys IH]; [done|].
  destruct ys as [|z zs]; [simpl; by rewrite !bytes_app|].
  change (String.concat sep ((y :: z :: zs) ++ [x]))
    with (y +:+ sep +:+ String.concat sep ((z :: zs) ++ [x])).
  change (String.concat sep (y :: z :: zs))
    with (y +:+ sep +:+ String.concat sep (z :: zs)).
  rewrite !bytes_app, IH. by rewrite <-!(assoc_L (++)).
Qed.

Lemma bytes_Join_snoc_ne (xs : list string) x sep :
  xs ≠ [] →
  bytes (Join (xs ++ [x]) sep) = bytes (Join xs sep) ++ bytes sep ++ bytes x.
Proof. intros H. rewrite bytes_Join_snoc. by destruct xs. Qed.

(** The keys that ranging over a map collects are its domain. *)
Lemma map_keys_dom state : (map_to_list state).*1 ≡ₚ elements (dom state).
Proof.
  apply NoDup_Permutation.
  - apply NoDup_fst_map_to_list.
  - apply NoDup_elements.
  - intros k. rewrite elem_of_elements, elem_of_dom, list_elem_of_fmap.
    split.
    + intros [[k' v] [-> Hkv]]. apply elem_of_map_to_list in Hkv. by eexists.
    + intros [v Hv]. exists (k, v). split; [done|].
      by apply elem_of_map_to_list.
Qed.

Lemma sort_Strings_Permutation keys1 keys2 :
  keys1 ≡ₚ keys2 → sort_Strings keys1 = sort_Strings keys2.
Proof.
  intros H. unfold sort_Strings. apply (Sorted_unique String.le).
  - apply Sorted_merge_sort, _.
  - apply Sorted_merge_sort, _.
  - by rewrite !merge_sort_Permutation.
Qed.

Lemma generateNodeID_from_Permutation keys1 keys2 knotName state :
  keys1 ≡ₚ keys2 →
  generateNodeID_from keys1 knotName state
  = generateNodeID_from keys2 knotName state.
Proof.
  intros H. unfold generateNodeID_from.
  by rewrite (sort_Strings_Permutation _ _ H).
Qed.

(** The sorted key list of a state vector. *)
Lemma generateNodeID_dom knotName state :
  generateNodeID knotName state
  = generateNodeID_from (elements (dom state)) knotName state.
Proof. apply generateNodeID_from_Permutation, map_keys_dom. Qed.

(** Two texts that end in the [%t] rendering of different Booleans
    differ. *)
Lemma fmt_bool_suffix (xs ys : list ascii) b1 b2 :
  xs ++ bytes (fmt_bool b1) = ys ++ bytes (fmt_bool b2) → b1 = b2.
Proof.
  intros H. apply (f_equal reverse) in H. rewrite !reverse_app in H.
  destruct b1, b2; try done; simpl in H; discriminate H.
Qed.

(** The rendering of the state parts over a fixed key list determines the
    text in front of it and the value of every key. *)
Lemma stateParts_inj ks state1 state2 (xs ys : list ascii) :
  xs ++ bytes (Join ((λ k, k +:+ "=" +:+ fmt_bool (readState state1 k))
                      <$> ks) ",")
  = ys ++ bytes (Join ((λ k, k +:+ "=" +:+ fmt_bool (readState state2 k))
                        <$> ks) ",") →
  xs = ys ∧ ∀ k, k ∈ ks → readState state1 k = readState state2 k.
Proof.
  revert xs ys. induction ks as [|k ks IH] using rev_ind; intros xs ys H.
  { simpl in H. rewrite !app_nil_r in H. split; [done|].
    by intros k ?%elem_of_nil. }
  rewrite !fmap_app in H. cbn [fmap list_fmap] in H.
  destruct (decide (ks = [])) as [->|Hne].
  - simpl in H. rewrite !bytes_app, !(assoc_L (++)) in H.
    pose proof (fmt_bool_suffix _ _ _ _ H) as Hk. rewrite Hk in H.
    do 3 apply app_inv_tail in H. split; [done|].
    by intros k' ->%list_elem_of_singleton.
  - rewrite !bytes_Join_snoc_ne in H by (by intros ?%fmap_nil_inv).
    rewrite !bytes_app, !(assoc_L (++)) in H.
    pose proof (fmt_bool_suffix _ _ _ _ H) as Hk. rewrite Hk in H.
    do 4 apply app_inv_tail in H. apply IH in H as [Hxy Hks].
    split; [done|].
    intros k' [?|Hk'%list_elem_of_singleton]%elem_of_app; subst; auto.
Qed.

Lemma generateNodeID_from_inj ks knotName1 knotName2 state1 state2 :
  generateNodeID_from ks knotName1 state1
  = generateNodeID_from ks knotName2 state2 →
  knotName1 = knotName2
  ∧ ∀ k, k ∈ ks → readState state1 k = readState state2 k.
Proof.
  unfold generateNodeID_from. intros H. apply (f_equal bytes) in H.
  rewrite !bytes_app, !(assoc_L (++)) in H.
  apply stateParts_inj in H as [Hn Hks]. split.
  - apply app_inv_tail in Hn. by apply bytes_inj.
  - intros k Hk. apply Hks.
    unfold sort_Strings. by rewrite merge_sort_Permutation.
Qed.

(** Over one set of variables the identity names one (unit, state) pair. *)
Lemma generateNodeID_inj knotName1 knotName2 state1 state2 :
  dom state1 = dom state2 →
  generateNodeID knotName1 state1 = generateNodeID knotName2 state2 →
  knotName1 = knotName2 ∧ state1 = state2.
Proof.
  intros Hdom. rewrite !generateNodeID_dom, Hdom.
  intros [Hn Hks]%generateNodeID_from_inj. split; [done|].
  apply map_eq. intros k. destruct (state1 !! k) as [b1|] eqn:E1.
  - assert (k ∈ dom state2) as [b2 E2]%elem_of_dom
      by (rewrite <-Hdom; apply elem_of_dom; eauto).
    specialize (Hks k). unfold readState in Hks. rewrite E1, E2 in Hks.
    rewrite E2. f_equal. apply Hks.
    apply elem_of_elements, elem_of_dom. eauto.
  - symmetry. apply not_elem_of_dom. rewrite <-Hdom.
    by apply not_elem_of_dom.
Qed.

(** Over different sets of variables an identity can name two pairs. *)
Example generateNodeID_ambiguous :
  generateNodeID "a" {[ "b|c" := true ]}
  = generateNodeID "a|b" {[ "c" := true ]}.
Proof. vm_compute. reflexivity. Qed.

End identity_facts.

(** C7, amended: the canonical identity.  The result does not depend on
    the order in which the keys of the state vector are enumerated, and
    two state vectors with the same variables and the same values get the
    same identity; the identity is [unit|name1=bool1,name2=bool2,...] with
    the names in ascending lexicographic order; and, for two state
    vectors over one and the same set of variables, two inputs that
    differ in the unit name or in the value of some variable get
    different identities. *)
Theorem C7_canonical_identity
    (knotName1 knotName2 : string) (state1 state2 : gmap string bool)
    (keys : list string)
    (Hkeys : keys ≡ₚ (map_to_list state1).*1)
    (Hdom : dom state1 = dom state2) :
  generateNodeID_from keys knotName1 state1 = generateNodeID knotName1 state1
  ∧ ((∀ name, name ∈ dom state1 → state1 !! name = state2 !! name) →
     generateNodeID knotName1 state1 = generateNodeID knotName1 state2)
  ∧ (∃ names,
       names ≡ₚ elements (dom state1)
       ∧ StronglySorted String.le names
       ∧ generateNodeID knotName1 state1
         = knotName1 +:+ "|"
           +:+ Join ((λ name, name +:+ "=" +:+
                        fmt_bool (readState state1 name)) <$> names) ",")
  ∧ (generateNodeID knotName1 state1 = generateNodeID knotName2 state2 ↔
     knotName1 = knotName2 ∧ state1 = state2).
Proof.
  split; [by apply generateNodeID_from_Permutation|]. split; [|split].
  - intros Hagree. f_equal. apply map_eq. intros k.
    destruct (decide (k ∈ dom state1)) as [Hk|Hk]; [by apply Hagree|].
    pose proof Hk as Hk'. rewrite Hdom in Hk'.
    apply not_elem_of_dom in Hk, Hk'. by rewrite Hk, Hk'.
  - exists (sort_Strings (map_to_list state1).*1). repeat split.
    + unfold sort_Strings. by rewrite merge_sort_Permutation, map_keys_dom.
    + apply StronglySorted_merge_sort; apply _.
  - split; [by apply generateNodeID_inj|by intros [-> ->]].
Qed.

Lemma C7_witness :
  generateNodeID_from ["has_room_key"; "global_quest_active"] "room1"
    {[ "global_quest_active" := false; "has_room_key" := true ]}
  = "room1|global_quest_active=false,has_room_key=true"
  ∧ (generateNodeID "room1"
       {[ "global_quest_active" := false; "has_room_key" := true ]}
     = generateNodeID "hallway"
         {[ "global_quest_active" := true; "has_room_key" := true ]}
     ↔ "room1" = "hallway"
       ∧ ({[ "global_quest_active" := false; "has_room_key" := true ]}
            : gmap string bool)
         = {[ "global_quest_active" := true; "has_room_key" := true ]}).
Proof.
  assert (["has_room_key"; "global_quest_active"] ≡ₚ
    (map_to_list ({[ "global_quest_active" := false;
                     "has_room_key" := true ]} : gmap string bool)).*1)
    as Hkeys by (vm_compute; reflexivity || apply Permutation_swap).
  assert (dom ({[ "global_quest_active" := false;
                  "has_room_key" := true ]} : gmap string bool)
          = dom ({[ "global_quest_active" := true;
                    "has_room_key" := true ]} : gmap string bool))
    as Hdom by (by rewrite !dom_insert_L).
  destruct (C7_canonical_identity "room1" "hallway" _ _ _ Hkeys Hdom)
    as (H1 & _ & _ & H4).
  split; [|exact H4]. rewrite H1. vm_compute. reflexivity.
Defined.

(** ** State vectors *)

Section state_facts.

Implicit Types (state : gmap string bool) (ast : Script) (change : string)
  (names : gmap string bool).

Lemma setFalse_lookup names state k :
  setFalse names state !! k
  = match names !! k with Some _ => Some false | None => state !! k end.
Proof.
  unfold setFalse.
  apply (map_fold_weak_ind (λ acc names', acc !! k =
    match names' !! k with Some _ => Some false | None => state !! k end)).
  - by rewrite lookup_empty.
  - intros i x m acc Hi IH. destruct (decide (i = k)) as [->|Hne].
    + by rewrite !lookup_insert_eq.
    + by rewrite !lookup_insert_ne.
Qed.

Lemma setFalse_dom names state :
  dom (setFalse names state) = dom names ∪ dom state.
Proof.
  apply set_eq. intros k. rewrite elem_of_union, !elem_of_dom.
  rewrite setFalse_lookup. destruct (names !! k) eqn:E.
  - split; [by left|by eexists].
  - split; [by right|]. by intros [[? [=]]|?].
Qed.

Lemma initialState_lookup ast k :
  initialState ast !! k
  = if decide (k ∈ declared ast) then Some false else None.
Proof.
  unfold initialState, declared. rewrite !setFalse_lookup, lookup_empty.
  destruct (LocalStates ast !! k) eqn:E1.
  { rewrite decide_True; [done|]. apply elem_of_union_r, elem_of_dom. eauto. }
  destruct (GlobalStates ast !! k) eqn:E2.
  { rewrite decide_True; [done|]. apply elem_of_union_l, elem_of_dom. eauto. }
  rewrite decide_False; [done|].
  rewrite elem_of_union, !elem_of_dom, E1, E2. by intros [[? [=]]|[? [=]]].
Qed.

Lemma initialState_dom ast : dom (initialState ast) = declared ast.
Proof.
  unfold initialState, declared. rewrite !setFalse_dom, dom_empty_L.
  set_solver.
Qed.

(** [applyChange] as an assignment to [mutatedName change]. *)
Lemma applyChange_Some ast state change state' :
  applyChange ast state change = Some state' →
  state' = state
  ∨ ∃ value, state' = <[mutatedName change := value]> state.
Proof.
  unfold applyChange, mutatedName.
  destruct (Split change "=" !! 0%nat) as [p0|]; [|done].
  destruct (Split change "=" !! 1%nat) as [p1|]; [|done]. simpl.
  case_match; intros [= <-]; eauto.
Qed.

Lemma applyChange_dom ast state change state' :
  applyChange ast state change = Some state' →
  dom state ⊆ dom state' ∧ dom state' ⊆ {[mutatedName change]} ∪ dom state.
Proof.
  intros [->|[value ->]]%applyChange_Some; [set_solver|].
  rewrite dom_insert_L. set_solver.
Qed.

Lemma applyChanges_dom ast state changes state' :
  applyChanges ast state changes = Some state' →
  dom state ⊆ dom state'
  ∧ dom state' ⊆ list_to_set (mutatedName <$> changes) ∪ dom state.
Proof.
  revert state. induction changes as [|change changes IH]; intros state.
  { intros [= <-]. set_solver. }
  cbn [applyChanges].
  destruct (applyChange ast state change) as [state1|] eqn:E; [|done].
  intros H. apply applyChange_dom in E as [E1 E2].
  apply IH in H as [H1 H2]. rewrite fmap_cons, list_to_set_cons.
  split; [by etrans|]. intros k Hk. apply H2 in Hk.
  apply elem_of_union in Hk as [Hk|Hk]; [set_solver|].
  apply E2 in Hk. set_solver.
Qed.

Lemma purgeLocals_dom ast currentKnot targetKnot state :
  dom state ⊆ dom (purgeLocals ast currentKnot targetKnot state)
  ∧ dom (purgeLocals ast currentKnot targetKnot state)
    ⊆ dom (LocalStates ast) ∪ dom state.
Proof.
  unfold purgeLocals. case_decide; [set_solver|].
  rewrite setFalse_dom. set_solver.
Qed.

End state_facts.

(** ** Nodes and choices *)

Section node_facts.

Implicit Types (state : gmap string bool) (ast : Script) (knot : Knot)
  (choice : Choice) (st : BuildState).

Lemma selectContent_Ok body state : ∃ content, selectContent body state = Ok content.
Proof.
  induction body as [|block body IH]; [by eexists|].
  cbn [selectContent]. case_decide; [by eexists|].
  destruct (evaluateCondition_total (tbCondition block) state) as [[] ->];
    simpl; [by eexists|done].
Qed.

Lemma createNode_Ok knotName knot state :
  ∃ content,
    createNode knotName knot state = Ok (newNode knotName knot state content).
Proof.
  unfold createNode.
  destruct (selectContent_Ok (Body knot) state) as [content ->].
  by exists content.
Qed.

Lemma choiceSkipped_false choice state :
  choiceSkipped choice state = Ok false ↔
  Condition choice = ""
  ∨ evaluateCondition (Condition choice) state = Some true.
Proof.
  unfold choiceSkipped. case_decide as Hc; [naive_solver|].
  destruct (evaluateCondition (Condition choice) state) as [[]|]; simpl;
    naive_solver.
Qed.

Lemma followChoice_Leads ast knotName state currentKnot choice
    targetKnotName targetKnot nextState :
  followChoice ast knotName state currentKnot choice
  = Ok (Leads targetKnotName targetKnot nextState) ↔
  Knots ast !! targetKnotName = Some targetKnot
  ∧ choiceLeads ast knotName state currentKnot choice targetKnotName nextState.
Proof.
  unfold followChoice. split.
  - destruct (choiceSkipped choice state) as [[]| |] eqn:Hskip; try done.
    apply choiceSkipped_false in Hskip. simpl.
    destruct (applyStateChanges state choice ast) as [next|] eqn:Hnext;
      [|done]. simpl.
    destruct (resolveDestination knotName choice) as [target|] eqn:Hdest;
      [|done].
    destruct (Knots ast !! target) as [knot|] eqn:Hknot; [|done].
    intros [= <- <- <-]. split; [done|]. by econstructor.
  - intros [Hknot Hleads]. destruct Hleads as [next target knot Hc Hn Hd Hk].
    apply choiceSkipped_false in Hc. rewrite Hc. simpl. rewrite Hn. simpl.
    rewrite Hd, Hk. by simplify_eq.
Qed.

End node_facts.

(** C7, as stated, fails: the units [a] and [a|b] differ, yet the pairs
    (a, {b|c = true}) and (a|b, {c = true}), both reachable in
    [ambiguousScript], get the same identity. *)
Lemma C7_counterexample :
  "a" ≠ "a|b"
  ∧ generateNodeID "a" {[ "b|c" := true ]}
    = generateNodeID "a|b" {[ "c" := true ]}
  ∧ reachable ambiguousScript "a" {[ "b|c" := true ]}
  ∧ reachable ambiguousScript "a|b" {[ "c" := true ]}
  ∧ ¬ (∀ knotName1 knotName2 (state1 state2 : gmap string bool),
         knotName1 ≠ knotName2 →
         generateNodeID knotName1 state1 ≠ generateNodeID knotName2 state2).
Proof.
  assert (generateNodeID "a" {[ "b|c" := true ]}
          = generateNodeID "a|b" {[ "c" := true ]}) as Hid
    by (vm_compute; reflexivity).
  assert (∃ indexKnot,
    Knots ambiguousScript !! "index" = Some indexKnot
    ∧ (∃ choice, Choices indexKnot !! 0%nat = Some choice
         ∧ followChoice ambiguousScript "index" (initialState ambiguousScript)
             indexKnot choice
           = Ok (Leads "a" (knot0 "a") {[ "b|c" := true ]}))
    ∧ (∃ choice, Choices indexKnot !! 1%nat = Some choice
         ∧ followChoice ambiguousScript "index" (initialState ambiguousScript)
             indexKnot choice
           = Ok (Leads "a|b" (knot0 "a|b") {[ "c" := true ]})))
    as (indexKnot & Hindex & (c0 & Hc0 & Hf0) & (c1 & Hc1 & Hf1)).
  { eexists. split; [vm_compute; reflexivity|]. split.
    - eexists. split; [reflexivity|]. vm_compute. reflexivity.
    - eexists. split; [reflexivity|]. vm_compute. reflexivity. }
  apply followChoice_Leads in Hf0 as [_ Hl0].
  apply followChoice_Leads in Hf1 as [_ Hl1].
  split; [done|]. split; [exact Hid|]. split; [|split].
  - eapply reachable_choice; [by eapply reachable_entry|exact Hindex| |
      exact Hl0]. by eapply list_elem_of_lookup_2.
  - eapply reachable_choice; [by eapply reachable_entry|exact Hindex| |
      exact Hl1]. by eapply list_elem_of_lookup_2.
  - intros H. by apply (H "a" "a|b" {[ "b|c" := true ]} {[ "c" := true ]}).
Qed.

(** ** One step of the traversal *)

Section register_facts.

Implicit Types (st : BuildState) (edge : StoryEdge) (node : StoryNode)
  (key id : string).

Lemma addEdge_fields edge node :
  KnotName (addEdge edge node) = KnotName node
  ∧ State (addEdge edge node) = State node
  ∧ nodeScene (addEdge edge node) = nodeScene node
  ∧ Edges (addEdge edge node) = Edges node ++ [edge].
Proof. done. Qed.

Lemma register_lookup key edge id' node' st id node :
  dom (bsGraph st) = bsVisited st →
  bsGraph st !! id = Some node →
  bsGraph (register key edge id' node' st) !! id
  = Some (if decide (id = key) then addEdge edge node else node).
Proof.
  intros Hdom Hid. unfold register.
  assert (alter (addEdge edge) key (bsGraph st) !! id
          = Some (if decide (id = key) then addEdge edge node else node))
    as Halter.
  { destruct (decide (id = key)) as [->|Hk].
    - by rewrite lookup_alter_eq, Hid.
    - by rewrite lookup_alter_ne. }
  destruct (decide (id' ∈ bsVisited st)) as [Hv|Hv]; cbn [bsGraph];
    [exact Halter|].
  rewrite lookup_insert_ne; [exact Halter|]. intros ->.
  apply Hv. rewrite <-Hdom. apply elem_of_dom. eauto.
Qed.

Lemma register_lookup_inv key edge id' node' st id node :
  bsGraph (register key edge id' node' st) !! id = Some node →
  (id = id' ∧ node = node' ∧ id' ∉ bsVisited st)
  ∨ ∃ node0, bsGraph st !! id = Some node0
             ∧ node = (if decide (id = key) then addEdge edge node0
                       else node0).
Proof.
  unfold register.
  assert (∀ n, alter (addEdge edge) key (bsGraph st) !! id = Some n →
    ∃ node0, bsGraph st !! id = Some node0
             ∧ n = (if decide (id = key) then addEdge edge node0 else node0))
    as Halter.
  { intros n. destruct (decide (id = key)) as [->|Hk].
    - rewrite lookup_alter_eq.
      destruct (bsGraph st !! key) as [node0|]; [|done].
      intros [= <-]. eauto.
    - rewrite lookup_alter_ne by done. eauto. }
  destruct (decide (id' ∈ bsVisited st)) as [Hv|Hv]; cbn [bsGraph];
    [by right; apply Halter|].
  destruct (decide (id = id')) as [->|Hne].
  - rewrite lookup_insert_eq. intros [= <-]. by left.
  - rewrite lookup_insert_ne by done. by right; apply Halter.
Qed.

Lemma register_visited key edge id' node' st :
  dom (bsGraph st) = bsVisited st →
  dom (bsGraph (register key edge id' node' st))
  = bsVisited (register key edge id' node' st).
Proof.
  intros Hdom. unfold register. case_decide; simpl.
  - by rewrite dom_alter_L.
  - by rewrite dom_insert_L, dom_alter_L, Hdom.
Qed.

Lemma register_target key edge id' node' st :
  dom (bsGraph st) = bsVisited st →
  is_Some (bsGraph (register key edge id' node' st) !! id').
Proof.
  intros Hdom. destruct (decide (id' ∈ bsVisited st)) as [Hv|Hv].
  - rewrite <-Hdom in Hv. apply elem_of_dom in Hv as [node Hnode].
    erewrite register_lookup by done. by eexists.
  - unfold register. rewrite decide_False by done. simpl.
    rewrite lookup_insert_eq. by eexists.
Qed.

Lemma register_queue key edge id' node' st k :
  k ∈ bsQueue (register key edge id' node' st) ↔
  k ∈ bsQueue st ∨ (k = id' ∧ id' ∉ bsVisited st).
Proof.
  unfold register. case_decide; simpl.
  - naive_solver.
  - rewrite elem_of_app, list_elem_of_singleton. naive_solver.
Qed.

End register_facts.

Section step_facts.

Implicit Types (state : gmap string bool) (ast : Script) (knot : Knot)
  (choice : Choice) (st : BuildState) (node : StoryNode).

(** What a successful turn of the inner loop does. *)
Lemma processChoice_Ok ast key currentNode currentKnot st choice st' :
  processChoice ast key currentNode currentKnot st choice = Ok st' →
  (followChoice ast (KnotName currentNode) (State currentNode) currentKnot
     choice = Ok Skipped ∧ st' = st)
  ∨ ∃ targetKnotName targetKnot nextState content,
      followChoice ast (KnotName currentNode) (State currentNode)
        currentKnot choice = Ok (Leads targetKnotName targetKnot nextState)
      ∧ st' = register key (edgeFor choice targetKnotName nextState)
                (generateNodeID targetKnotName nextState)
                (newNode targetKnotName targetKnot nextState content) st.
Proof.
  unfold processChoice.
  destruct (followChoice _ _ _ _ _) as [[|target knot next]| |]; try done.
  { intros [= <-]. by left. }
  simpl. unfold recordChoice.
  destruct (createNode_Ok target knot next) as [content ->]. simpl.
  intros [= <-]. right. by exists target, knot, next, content.
Qed.

(** The inner loop fails only with the error or the panic of a choice. *)
Lemma processChoice_not_Ok ast key currentNode currentKnot st choice :
  (∀ st', processChoice ast key currentNode currentKnot st choice ≠ Ok st') →
  processChoice ast key currentNode currentKnot st choice
  = match followChoice ast (KnotName currentNode) (State currentNode)
            currentKnot choice with
    | Ok _ => Panic
    | Err msg => Err msg
    | Panic => Panic
    end
  ∧ ∀ f, followChoice ast (KnotName currentNode) (State currentNode)
           currentKnot choice ≠ Ok f.
Proof.
  unfold processChoice.
  destruct (followChoice _ _ _ _ _) as [[|target knot next]| |]; try done.
  - intros H. by destruct (H st).
  - simpl. unfold recordChoice.
    destruct (createNode_Ok target knot next) as [content ->]. simpl.
    intros H. by edestruct H.
Qed.

End step_facts.

(** ** The invariants are kept by every step *)

Section invariant_facts.

Context (ast : Script).

Implicit Types (state : gmap string bool) (knot : Knot)
  (choice : Choice) (st : BuildState) (node : StoryNode).

Lemma choiceLeads_followChoice knotName state currentKnot choice
    targetKnotName nextState :
  choiceLeads ast knotName state currentKnot choice targetKnotName nextState →
  ∃ targetKnot,
    followChoice ast knotName state currentKnot choice
    = Ok (Leads targetKnotName targetKnot nextState).
Proof.
  intros H. pose proof H as H'.
  destruct H' as [next target knot' _ _ _ Hk]. exists knot'.
  by apply followChoice_Leads.
Qed.

(** A choice leads to at most one place. *)
Lemma choiceLeads_functional knotName state currentKnot choice
    targetKnotName1 nextState1 targetKnotName2 nextState2 :
  choiceLeads ast knotName state currentKnot choice targetKnotName1
    nextState1 →
  choiceLeads ast knotName state currentKnot choice targetKnotName2
    nextState2 →
  targetKnotName1 = targetKnotName2 ∧ nextState1 = nextState2.
Proof.
  intros [knot1 H1]%choiceLeads_followChoice
         [knot2 H2]%choiceLeads_followChoice.
  rewrite H1 in H2. by simplify_eq.
Qed.

Section register_step.

Context (key knotName : string) (state : gmap string bool)
  (currentKnot : Knot) (choice : Choice)
  (targetKnotName : string) (targetKnot : Knot)
  (nextState : gmap string bool) (content : string) (st : BuildState).

Local Abbreviation edge := (edgeFor choice targetKnotName nextState).
Local Abbreviation nextNodeID := (generateNodeID targetKnotName nextState).
Local Abbreviation nextNode :=
  (newNode targetKnotName targetKnot nextState content).
Local Abbreviation st' := (register key edge nextNodeID nextNode st).

Hypothesis Hinv : traversalInv ast st.
Hypothesis Hcur : currentAt st key knotName state.
Hypothesis Hknot : Knots ast !! knotName = Some currentKnot.
Hypothesis Hchoice : choice ∈ Choices currentKnot.
Hypothesis Hfollow :
  followChoice ast knotName state currentKnot choice
  = Ok (Leads targetKnotName targetKnot nextState).

Lemma register_currentAt : currentAt st' key knotName state.
Proof using Hinv Hcur.
  destruct Hcur as (node & Hnode & Hk & Hs).
  eexists. split; [eapply register_lookup; [apply Hinv|done]|].
  rewrite decide_True by done. done.
Qed.

(** The nodes of the new store: the registered one, or an old one whose
    edge list may have grown by the new edge. *)
Lemma register_nodes id node :
  bsGraph st' !! id = Some node →
  (node = nextNode ∧ id = nextNodeID ∧ nextNodeID ∉ bsVisited st)
  ∨ ∃ node0, bsGraph st !! id = Some node0
      ∧ KnotName node = KnotName node0 ∧ State node = State node0
      ∧ nodeScene node = nodeScene node0
      ∧ (Edges node = Edges node0
         ∨ (id = key ∧ Edges node = Edges node0 ++ [edge])).
Proof.
  intros [(-> & -> & ?)|(node0 & H0 & ->)]%register_lookup_inv;
    [by left|right].
  exists node0. split; [done|]. case_decide; naive_solver.
Qed.

Lemma register_traversalInv : traversalInv ast st'.
Proof using Hinv Hcur Hknot Hchoice Hfollow.
  pose proof Hfollow as [Htarget Hleads]%followChoice_Leads.
  destruct Hcur as (cur & Hcurnode & Hk & Hs).
  split.
  - apply register_visited, Hinv.
  - intros k [Hk'|[-> _]]%register_queue.
    + apply (inv_queue _ _ Hinv) in Hk' as [node Hnode].
      erewrite register_lookup; [by eexists|apply Hinv|done].
    + apply register_target, Hinv.
  - intros id node
      [(-> & -> & _)|(node0 & H0 & -> & -> & _)]%register_nodes; [done|].
    by eapply inv_key.
  - intros id node
      [(-> & -> & _)|(node0 & H0 & -> & _ & -> & _)]%register_nodes.
    + by exists targetKnot.
    + by eapply inv_knot.
  - intros id node
      [(-> & -> & _)|(node0 & H0 & -> & -> & _)]%register_nodes.
    + simpl. apply (reachable_choice ast knotName state currentKnot choice);
        [|done..].
      rewrite <-Hk, <-Hs. by eapply inv_reachable.
    + by eapply inv_reachable.
  - intros id node e
      [(-> & -> & _)|(node0 & H0 & Hkn & Hst & _ & Hedges)]%register_nodes
      Hedge.
    { by apply elem_of_nil in Hedge. }
    unfold edgeFromChoice. rewrite Hkn, Hst.
    destruct Hedges as [He|[-> He]]; rewrite He in Hedge.
    { by eapply (inv_edges _ _ Hinv). }
    apply elem_of_app in Hedge as [Hedge| ->%list_elem_of_singleton].
    { by eapply (inv_edges _ _ Hinv). }
    assert (node0 = cur) as -> by congruence.
    exists currentKnot, choice, targetKnotName, nextState.
    by rewrite Hk, Hs.
  - intros id node e
      [(-> & -> & _)|(node0 & H0 & _ & _ & _ & Hedges)]%register_nodes
      Hedge.
    { by apply elem_of_nil in Hedge. }
    assert (e ∈ Edges node0 ∨ e = edge) as [Hold| ->].
    { destruct Hedges as [He|[-> He]]; rewrite He in Hedge; [by left|].
      apply elem_of_app in Hedge as [?|?%list_elem_of_singleton]; auto. }
    + destruct (inv_targets _ _ Hinv _ _ _ H0 Hold) as [target Ht].
      erewrite register_lookup; [by eexists|apply Hinv|done].
    + apply register_target, Hinv.
  - destruct (inv_root _ _ Hinv) as [root Hroot].
    erewrite register_lookup; [by eexists|apply Hinv|done].
Qed.

(** Exploration already done stays done. *)
Lemma register_explored id choices :
  id ≠ nextNodeID ∨ nextNodeID ∈ bsVisited st →
  explored ast (bsGraph st) id choices →
  explored ast (bsGraph st') id choices.
Proof using Hinv.
  intros Hid Hexp node knot' choice' Hnode Hk' Hc'.
  apply register_nodes in Hnode
    as [(_ & -> & Hfresh)|(node0 & H0 & Hkn & Hst & _ & Hedges)];
    [naive_solver|].
  rewrite Hkn in Hk'. rewrite Hkn, Hst.
  destruct (Hexp node0 knot' choice' H0 Hk' Hc') as [Hok Hleads].
  split; [done|]. intros target' next' Hl.
  destruct (Hleads target' next' Hl) as [Hedge [target Ht]].
  split.
  - destruct Hedges as [->|[_ ->]]; [done|]. apply elem_of_app. by left.
  - erewrite register_lookup; [by eexists|apply Hinv|done].
Qed.

(** The choice just handled is explored. *)
Lemma register_explored_current choices :
  explored ast (bsGraph st) key choices →
  explored ast (bsGraph st') key (choices ++ [choice]).
Proof using Hinv Hcur Hknot Hfollow.
  intros Hexp node knot' choice' Hnode Hk' Hc'.
  destruct Hcur as (cur & Hcurnode & Hk & Hs).
  pose proof (register_lookup key edge nextNodeID nextNode st key cur
    (inv_visited _ _ Hinv) Hcurnode) as Hnode'.
  rewrite decide_True in Hnode' by done.
  rewrite Hnode in Hnode'. injection Hnode' as ->.
  simpl in Hk' |- *. rewrite Hk in Hk'. rewrite Hk, Hs.
  assert (knot' = currentKnot) as -> by congruence.
  apply elem_of_app in Hc' as [Hc'| ->%list_elem_of_singleton].
  - rewrite <-Hk in Hk'.
    destruct (Hexp cur currentKnot choice' Hcurnode Hk' Hc')
      as [Hok Hleads]. rewrite Hk, Hs in Hok, Hleads.
    split; [done|]. intros target' next' Hl.
    destruct (Hleads target' next' Hl) as [Hedge [target Ht]].
    split; [apply elem_of_app; by left|].
    erewrite register_lookup; [by eexists|apply Hinv|done].
  - split; [by eexists|]. intros target' next' Hl.
    pose proof Hfollow as [_ Hleads']%followChoice_Leads.
    destruct (choiceLeads_functional _ _ _ _ _ _ _ _ Hl Hleads')
      as [-> ->].
    split; [apply elem_of_app; right; by apply list_elem_of_singleton|].
    apply register_target, Hinv.
Qed.

End register_step.

Lemma explored_skipped graph key knotName state currentKnot choice choices :
  (∀ node, graph !! key = Some node →
     KnotName node = knotName ∧ State node = state) →
  Knots ast !! knotName = Some currentKnot →
  followChoice ast knotName state currentKnot choice = Ok Skipped →
  explored ast graph key choices →
  explored ast graph key (choices ++ [choice]).
Proof.
  intros Hcur Hknot Hskip Hexp node knot' choice' Hnode Hk' Hc'.
  apply elem_of_app in Hc' as [Hc'| ->%list_elem_of_singleton]; [by eauto|].
  destruct (Hcur _ Hnode) as [Hk Hs]. rewrite Hk, Hs.
  rewrite Hk in Hk'. assert (knot' = currentKnot) as -> by congruence.
  split; [by eexists|]. intros target' next' Hleads.
  apply choiceLeads_followChoice in Hleads as [knot'' Hleads]. congruence.
Qed.

End invariant_facts.

(** ** The loops *)

Section loop_facts.

Context (ast : Script).

Implicit Types (state : gmap string bool) (knot : Knot)
  (choice : Choice) (st : BuildState) (node : StoryNode).

Lemma processChoice_innerInv key currentNode currentKnot st choice st'
    choices :
  Knots ast !! KnotName currentNode = Some currentKnot →
  choice ∈ Choices currentKnot →
  innerInv ast key (KnotName currentNode) (State currentNode) choices st →
  processChoice ast key currentNode currentKnot st choice = Ok st' →
  innerInv ast key (KnotName currentNode) (State currentNode)
    (choices ++ [choice]) st'.
Proof.
  intros Hknot Hchoice (Hinv & Hcur & Hexp & Hrest) Hstep.
  apply processChoice_Ok in Hstep
    as [[Hskip ->]|(target & knot' & next & content & Hfollow & ->)].
  - split; [done|]. split; [done|]. split; [|done].
    eapply explored_skipped; [|done..].
    intros node Hnode. destruct Hcur as (cur & Hcurnode & ? & ?).
    by simplify_eq.
  - split; [by eapply register_traversalInv|].
    split; [by eapply register_currentAt|].
    split; [by eapply register_explored_current|].
    intros id Hne Hq node knot Hnode Hk.
    rewrite register_queue in Hq.
    apply register_explored; [done| |].
    { destruct (decide (generateNodeID target next ∈ bsVisited st));
        [by right|left]. intros ->. apply Hq. by right. }
    apply register_nodes in Hnode
      as [(_ & -> & Hfresh)|(node0 & H0 & Hkn & _)].
    { destruct Hq. by right. }
    rewrite Hkn in Hk. eapply (Hrest id); [done| |done..].
    intros Hin. apply Hq. by left.
Qed.

Lemma processChoices_innerInv key currentNode currentKnot choices :
  Knots ast !! KnotName currentNode = Some currentKnot →
  ∀ handled st st',
    (∀ choice, choice ∈ choices → choice ∈ Choices currentKnot) →
    innerInv ast key (KnotName currentNode) (State currentNode) handled st →
    processChoices ast key currentNode currentKnot st choices = Ok st' →
    innerInv ast key (KnotName currentNode) (State currentNode)
      (handled ++ choices) st'.
Proof.
  intros Hknot. induction choices as [|choice choices IH];
    intros handled st st' Hsub Hinv Hrun.
  { injection Hrun as <-. by rewrite app_nil_r. }
  cbn [processChoices] in Hrun.
  destruct (processChoice ast key currentNode currentKnot st choice)
    as [st1| |] eqn:Hstep; try done. simpl in Hrun.
  rewrite (cons_middle choice), (assoc_L (++)).
  apply (IH _ st1); [|by eapply processChoice_innerInv; eauto using
    list_elem_of_here|done].
  intros c Hc. apply Hsub. by right.
Qed.

(** A failing inner loop fails at one of the choices. *)
Lemma processChoices_fails key currentNode currentKnot choices st r :
  processChoices ast key currentNode currentKnot st choices = r →
  (∀ st', r ≠ Ok st') →
  ∃ choice, choice ∈ choices
    ∧ (∀ f, followChoice ast (KnotName currentNode) (State currentNode)
              currentKnot choice ≠ Ok f)
    ∧ r = match followChoice ast (KnotName currentNode)
                  (State currentNode) currentKnot choice with
          | Ok _ => Panic
          | Err msg => Err msg
          | Panic => Panic
          end.
Proof.
  revert st. induction choices as [|choice choices IH]; intros st Hrun Hr.
  { simpl in Hrun. subst. by destruct (Hr st). }
  cbn [processChoices] in Hrun.
  destruct (processChoice ast key currentNode currentKnot st choice)
    as [st1| |] eqn:Hstep.
  - simpl in Hrun. destruct (IH st1 Hrun Hr) as (c & Hc & Hf).
    exists c. split; [by right|done].
  - simpl in Hrun. subst r. exists choice. split; [by left|].
    destruct (processChoice_not_Ok ast key currentNode currentKnot st choice)
      as [Heq Hno]; [congruence|].
    split; [done|]. by rewrite <-Heq.
  - simpl in Hrun. subst r. exists choice. split; [by left|].
    destruct (processChoice_not_Ok ast key currentNode currentKnot st choice)
      as [Heq Hno]; [congruence|].
    split; [done|]. by rewrite <-Heq.
Qed.

Lemma processNode_outerInv key queue st st' :
  bsQueue st = key :: queue →
  outerInv ast st →
  processNode ast key (dequeued st queue) = Ok st' →
  outerInv ast st'.
Proof.
  intros Hq [Hinv Hclosed] Hrun. unfold processNode in Hrun.
  cbn [dequeued bsGraph] in Hrun.
  destruct (bsGraph st !! key) as [cur|] eqn:Hcur; [|done]. simpl in Hrun.
  destruct (Knots ast !! KnotName cur) as [knot|] eqn:Hknot; [|done].
  simpl in Hrun.
  apply (processChoices_innerInv _ _ _ _ Hknot []) in Hrun
    as (Hinv' & Hcur' & Hexp' & Hrest'); [|done|].
  - split; [done|]. intros id Hid.
    destruct (decide (id = key)) as [->|Hne]; [|by apply Hrest'].
    intros node knot' Hnode Hk. destruct Hcur' as (cur' & ? & Hkn & ?).
    assert (knot' = knot) as -> by (simplify_eq; congruence). done.
  - split; [|split; [|split]].
    + destruct Hinv. split; try done. cbn [dequeued bsQueue].
      intros k Hk. apply inv_queue0. rewrite Hq. by right.
    + by exists cur.
    + by intros ??? ?? ?%elem_of_nil.
    + intros id Hne Hid. apply Hclosed. rewrite Hq.
      cbn [dequeued bsQueue] in Hid. by intros [?|?]%elem_of_cons.
Qed.

Lemma traverse_outerInv fuel st st' :
  outerInv ast st →
  traverse fuel ast st = Some (Ok st') →
  outerInv ast st' ∧ bsQueue st' = [].
Proof.
  revert st. induction fuel as [|fuel IH]; intros st Hinv Hrun.
  - simpl in Hrun. destruct (bsQueue st) eqn:Hq; [|done].
    by simplify_eq.
  - cbn [traverse] in Hrun. destruct (bsQueue st) as [|key queue] eqn:Hq.
    { by simplify_eq. }
    destruct (processNode ast key (dequeued st queue)) as [st1| |] eqn:Hnode;
      try done.
    apply (IH st1); [|done]. by eapply processNode_outerInv.
Qed.

Lemma rootState_outerInv indexKnot st :
  Knots ast !! "index" = Some indexKnot →
  rootState ast indexKnot = Ok st →
  outerInv ast st.
Proof.
  intros Hindex. unfold rootState.
  destruct (createNode_Ok "index" indexKnot (initialState ast))
    as [content ->]. simpl. intros [= <-].
  set (id := generateNodeID "index" (initialState ast)).
  assert (∀ i node,
    ({[id := newNode "index" indexKnot (initialState ast) content]}
       : gmap string StoryNode) !! i = Some node →
    i = id ∧ node = newNode "index" indexKnot (initialState ast) content)
    as Hone by (by intros i node [-> ->]%lookup_singleton_Some).
  split; [split|]; simpl.
  - by rewrite dom_singleton_L.
  - intros key ->%list_elem_of_singleton.
    rewrite lookup_singleton_eq. by eexists.
  - by intros i node [-> ->]%Hone.
  - intros i node [-> ->]%Hone. by exists indexKnot.
  - intros i node [-> ->]%Hone. by eapply reachable_entry.
  - by intros i node edge [-> ->]%Hone ?%elem_of_nil.
  - by intros i node edge [-> ->]%Hone ?%elem_of_nil.
  - rewrite lookup_singleton_eq. by eexists.
  - intros i Hi node knot [-> ->]%Hone. destruct Hi.
    by apply list_elem_of_singleton.
Qed.

(** What holds of every graph that [buildGraph] returns. *)
Lemma buildGraph_Ok fuel g :
  buildGraph fuel ast = Some (Ok g) →
  ∃ st, Graph g = bsGraph st ∧ traversalInv ast st
        ∧ ∀ id, fullyExplored ast (Graph g) id.
Proof.
  unfold buildGraph.
  destruct (Knots ast !! "index") as [indexKnot|] eqn:Hindex; [|done].
  destruct (rootState ast indexKnot) as [st0| |] eqn:Hroot; try done.
  destruct (traverse fuel ast st0) as [[st1| |]|] eqn:Hrun; try done.
  intros [= <-]. simpl.
  apply traverse_outerInv in Hrun as [[Hinv Hclosed] Hq];
    [|by eapply rootState_outerInv].
  exists st1. split; [done|]. split; [done|].
  intros id. apply Hclosed. rewrite Hq. apply not_elem_of_nil.
Qed.

End loop_facts.

(** ** Flags and locals along a choice *)

Section class_facts.

Context (ast : Script).

Implicit Types (state : gmap string bool) (change name : string).

(** [applyChange] in terms of the name and the value it assigns. *)
Lemma applyChange_assign state change :
  applyChange ast state change
  = value ← mutatedValue change;
    Some (if decide (isFlag ast (mutatedName change) ∧ value = false)
          then state
          else <[mutatedName change := value]> state).
Proof.
  unfold applyChange, mutatedValue, mutatedName.
  destruct (Split_lookup_0 "=" change) as [p0 ->]. simpl.
  destruct (Split change "=" !! 1%nat) as [p1|]; [|done]. simpl.
  generalize (bool_decide (TrimSpace p1 = "true")). intros value.
  case_decide as Hskip.
  - destruct Hskip as [Hflag ->]. unfold isFlag in Hflag. rewrite Hflag.
    simpl. by rewrite ?bool_decide_eq_true_2 by eauto.
  - destruct (GlobalStates ast !! TrimSpace p0) as [[]|] eqn:E; simpl.
    + rewrite ?bool_decide_eq_true_2 by eauto. destruct value; [done|].
      by destruct Hskip.
    + by rewrite ?andb_false_r.
    + by rewrite ?bool_decide_eq_false_2 by (by intros [? [=]]).
Qed.

(** A mutation that sets a flag to [false] is skipped. *)
Lemma applyChange_flag_false state change :
  isFlag ast (mutatedName change) → mutatedValue change = Some false →
  applyChange ast state change = Some state.
Proof.
  intros Hflag Hv. rewrite applyChange_assign, Hv. simpl.
  by rewrite decide_True.
Qed.

Lemma applyChanges_app state changes1 changes2 :
  applyChanges ast state (changes1 ++ changes2)
  = state' ← applyChanges ast state changes1;
    applyChanges ast state' changes2.
Proof.
  revert state. induction changes1 as [|change changes1 IH]; intros state;
    [done|].
  cbn [app applyChanges]. by destruct (applyChange ast state change).
Qed.

(** Wherever it stands in the list, it is as if it were not there. *)
Lemma applyChanges_flag_false state before change after :
  isFlag ast (mutatedName change) → mutatedValue change = Some false →
  applyChanges ast state (before ++ change :: after)
  = applyChanges ast state (before ++ after).
Proof.
  intros Hflag Hv. rewrite !applyChanges_app.
  destruct (applyChanges ast state before) as [state'|]; [|done]. simpl.
  by rewrite applyChange_flag_false.
Qed.

Lemma applyChange_flag_true state change state' v :
  isFlag ast v → applyChange ast state change = Some state' →
  state !! v = Some true → state' !! v = Some true.
Proof.
  intros Hflag. rewrite applyChange_assign.
  destruct (mutatedValue change) as [value|]; [|done]. simpl.
  intros [= <-] Hv. case_decide as Hskip; [done|].
  destruct (decide (mutatedName change = v)) as [<-|Hne].
  - rewrite lookup_insert_eq. destruct value; [done|]. by destruct Hskip.
  - by rewrite lookup_insert_ne.
Qed.

Lemma applyChanges_flag_true state changes state' v :
  isFlag ast v → applyChanges ast state changes = Some state' →
  state !! v = Some true → state' !! v = Some true.
Proof.
  intros Hflag. revert state.
  induction changes as [|change changes IH]; intros state.
  { by intros [= <-]. }
  cbn [applyChanges].
  destruct (applyChange ast state change) as [state1|] eqn:E; [|done].
  eauto using applyChange_flag_true.
Qed.

(** A true flag that is not also a local stays true along a choice. *)
Lemma choiceLeads_flag knotName state currentKnot choice targetKnotName
    nextState v :
  isFlag ast v → ¬ isLocal ast v →
  choiceLeads ast knotName state currentKnot choice targetKnotName
    nextState →
  state !! v = Some true → nextState !! v = Some true.
Proof.
  intros Hflag Hlocal [next target knot' _ Happly _ _] Hv.
  eapply applyChanges_flag_true in Happly; [|done..].
  unfold purgeLocals. case_decide; [done|].
  rewrite setFalse_lookup. destruct (LocalStates ast !! v) eqn:E; [|done].
  destruct Hlocal. by eexists.
Qed.

(** A choice into another scene leaves every local [false]. *)
Lemma choiceLeads_purge knotName state currentKnot choice targetKnotName
    targetKnot nextState l :
  choiceLeads ast knotName state currentKnot choice targetKnotName
    nextState →
  Knots ast !! targetKnotName = Some targetKnot →
  Scene currentKnot ≠ Scene targetKnot → isLocal ast l →
  nextState !! l = Some false.
Proof.
  intros [next target knot' _ _ _ Hknot] Hknot' Hscene [b Hl].
  assert (knot' = targetKnot) as -> by congruence.
  unfold purgeLocals. rewrite decide_False by done.
  by rewrite setFalse_lookup, Hl.
Qed.

End class_facts.

(** ** Edges of the returned graph *)

Section graph_facts.

Context (ast : Script) (fuel : nat) (g : StoryGraph).
Hypothesis Hbuild : buildGraph fuel ast = Some (Ok g).

Implicit Types (node : StoryNode) (edge : StoryEdge) (id : string).

Lemma graph_key id node :
  Graph g !! id = Some node →
  id = generateNodeID (KnotName node) (State node).
Proof using Hbuild.
  destruct (buildGraph_Ok _ _ _ Hbuild) as (st & -> & Hinv & _).
  apply (inv_key _ _ Hinv).
Qed.

Lemma graph_reachable id node :
  Graph g !! id = Some node → reachable ast (KnotName node) (State node).
Proof using Hbuild.
  destruct (buildGraph_Ok _ _ _ Hbuild) as (st & -> & Hinv & _).
  apply (inv_reachable _ _ Hinv).
Qed.

Lemma graph_knot id node :
  Graph g !! id = Some node →
  ∃ knot, Knots ast !! KnotName node = Some knot
          ∧ nodeScene node = Scene knot.
Proof using Hbuild.
  destruct (buildGraph_Ok _ _ _ Hbuild) as (st & -> & Hinv & _).
  apply (inv_knot _ _ Hinv).
Qed.

Lemma graph_edge id node edge :
  Graph g !! id = Some node → edge ∈ Edges node →
  edgeFromChoice ast node edge.
Proof using Hbuild.
  destruct (buildGraph_Ok _ _ _ Hbuild) as (st & -> & Hinv & _).
  apply (inv_edges _ _ Hinv).
Qed.

Lemma graph_noDangling : noDanglingEdges (Graph g).
Proof using Hbuild.
  destruct (buildGraph_Ok _ _ _ Hbuild) as (st & -> & Hinv & _).
  apply (inv_targets _ _ Hinv).
Qed.

Lemma graph_explored id : fullyExplored ast (Graph g) id.
Proof using Hbuild.
  destruct (buildGraph_Ok _ _ _ Hbuild) as (st & _ & _ & Hexp).
  apply Hexp.
Qed.

Lemma graph_root :
  is_Some (Graph g !! generateNodeID "index" (initialState ast)).
Proof using Hbuild.
  destruct (buildGraph_Ok _ _ _ Hbuild) as (st & -> & Hinv & _).
  apply (inv_root _ _ Hinv).
Qed.

(** With unambiguous identities, the node under an identity is the pair
    the identity was computed from. *)
Lemma graph_lookup_identity knotName state node :
  distinctIdentities ast → reachable ast knotName state →
  Graph g !! generateNodeID knotName state = Some node →
  KnotName node = knotName ∧ State node = state.
Proof using Hbuild.
  intros Hdistinct Hreach Hnode.
  pose proof (graph_key _ _ Hnode) as Hkey.
  apply Hdistinct in Hkey as [-> ->]; [done|done|].
  by eapply graph_reachable.
Qed.

(** Every reachable pair is a node. *)
Lemma graph_complete knotName state :
  distinctIdentities ast → reachable ast knotName state →
  ∃ node, Graph g !! generateNodeID knotName state = Some node
          ∧ KnotName node = knotName ∧ State node = state.
Proof using Hbuild.
  intros Hdistinct Hreach.
  induction Hreach as [indexKnot Hindex
    |knotName state currentKnot choice target next Hreach IH Hknot Hchoice
       Hleads].
  - destruct graph_root as [node Hnode]. exists node. split; [done|].
    eapply graph_lookup_identity; [done| |done]. by eapply reachable_entry.
  - destruct IH as (node & Hnode & <- & <-).
    destruct (graph_explored _ node currentKnot Hnode Hknot node currentKnot
      choice Hnode Hknot Hchoice) as [_ Hexp].
    destruct (Hexp target next Hleads) as [_ [node' Hnode']].
    exists node'. split; [done|].
    eapply graph_lookup_identity; [done| |done].
    by eapply reachable_choice.
Qed.

(** The target node of an edge holds the state its choice leads to. *)
Lemma graph_edge_target id node edge node' :
  distinctIdentities ast →
  Graph g !! id = Some node → edge ∈ Edges node →
  Graph g !! TargetNodeID edge = Some node' →
  ∃ currentKnot choice,
    Knots ast !! KnotName node = Some currentKnot
    ∧ choice ∈ Choices currentKnot
    ∧ edge = edgeFor choice (KnotName node') (State node')
    ∧ choiceLeads ast (KnotName node) (State node) currentKnot choice
        (KnotName node') (State node').
Proof using Hbuild.
  intros Hdistinct Hnode Hedge Hnode'.
  destruct (graph_edge _ _ _ Hnode Hedge)
    as (knot & choice & target & next & Hknot & Hchoice & Hleads & ->).
  simpl in Hnode'.
  apply graph_lookup_identity in Hnode' as [<- <-]; [|done|].
  - by exists knot, choice.
  - eapply reachable_choice; [|done..]. by eapply graph_reachable.
Qed.

End graph_facts.

(** ** Scripts that declare what they assign *)

Section script_facts.

Context (ast : Script).

Lemma elem_of_allChoices knotName knot choice :
  Knots ast !! knotName = Some knot → choice ∈ Choices knot →
  choice ∈ allChoices ast.
Proof.
  intros Hknot Hchoice. unfold allChoices. apply list_elem_of_bind.
  exists knot. split; [done|]. apply list_elem_of_fmap.
  exists (knotName, knot). split; [done|]. by apply elem_of_map_to_list.
Qed.

Lemma elem_of_allChanges knotName knot choice change :
  Knots ast !! knotName = Some knot → choice ∈ Choices knot →
  change ∈ StateChanges choice → change ∈ allChanges ast.
Proof.
  intros Hknot Hchoice Hchange. unfold allChanges. apply list_elem_of_bind.
  exists choice. split; [done|]. by eapply elem_of_allChoices.
Qed.

(** The variables a choice can add to a state vector are among
    [variables ast]. *)
Lemma choiceLeads_dom knotName state currentKnot choice targetKnotName
    nextState :
  Knots ast !! knotName = Some currentKnot → choice ∈ Choices currentKnot →
  choiceLeads ast knotName state currentKnot choice targetKnotName
    nextState →
  dom state ⊆ dom nextState
  ∧ dom nextState
    ⊆ dom (LocalStates ast)
      ∪ list_to_set (mutatedName <$> StateChanges choice) ∪ dom state.
Proof.
  intros Hknot Hchoice [next target knot' _ Happly _ _].
  apply applyChanges_dom in Happly as [H1 H2].
  destruct (purgeLocals_dom ast currentKnot knot' next) as [H3 H4].
  split; [by etrans|]. etrans; [done|]. set_solver.
Qed.

Lemma reachable_dom knotName state :
  declaresMutations ast → reachable ast knotName state →
  dom state = declared ast.
Proof.
  intros Hdecl Hreach.
  induction Hreach as [indexKnot Hindex
    |knotName state currentKnot choice target next Hreach IH Hknot Hchoice
       Hleads].
  - apply initialState_dom.
  - destruct (choiceLeads_dom _ _ _ _ _ _ Hknot Hchoice Hleads) as [H1 H2].
    apply set_eq. intros v. split; [|rewrite <-IH; apply H1].
    intros Hv. apply H2 in Hv. rewrite IH in Hv.
    apply elem_of_union in Hv as [Hv|Hv]; [|done].
    apply elem_of_union in Hv as [Hv|Hv];
      [unfold declared; set_solver|].
    apply elem_of_list_to_set, list_elem_of_fmap in Hv
      as (change & -> & Hchange).
    unfold declaresMutations in Hdecl. rewrite Forall_forall in Hdecl.
    apply Hdecl. by eapply elem_of_allChanges.
Qed.

(** When every mutation assigns a declared variable, all state vectors
    range over the declared variables and no identity is ambiguous. *)
Lemma declaresMutations_distinctIdentities :
  declaresMutations ast → distinctIdentities ast.
Proof.
  intros Hdecl k1 s1 k2 s2 H1 H2. apply generateNodeID_inj.
  by rewrite (reachable_dom k1 s1), (reachable_dom k2 s2).
Qed.

End script_facts.

(** ** Runs of the builder on the scripts above *)

(** The assertions of engine_test.go. *)
Example TestSimpleCompilation :
  graphKeys (buildGraph 10 simpleScript)
  = Some {[ "index|has_key=false"; "index|has_key=true";
            "victory|has_key=true" ]}
  ∧ checkEdge (buildGraph 10 simpleScript) "index|has_key=false" 0
      (λ node edge _, bool_decide
         (KnotName node = "index" ∧ Content node = "The door is locked."
          ∧ length (Edges node) = 1%nat
          ∧ edgeText edge = "Look for a key."
          ∧ TargetNodeID edge = "index|has_key=true")) = true.
Proof. split; vm_compute; reflexivity. Qed.

Example TestFlagState :
  checkEdge (buildGraph 10 flagScript) "next|major_event=true" 0
    (λ _ edge _, bool_decide (TargetNodeID edge = "index|major_event=true"))
  = true.
Proof. vm_compute. reflexivity. Qed.

Example TestLocalState :
  checkEdge (buildGraph 10 localScript)
    "room1|global_quest_active=false,has_room_key=true" 1
    (λ _ edge _, bool_decide
       (TargetNodeID edge
        = "hallway|global_quest_active=false,has_room_key=false"))
  = true.
Proof. vm_compute. reflexivity. Qed.

Example TestConditionalText :
  graphContent (buildGraph 10 conditionalScript) "index|power_on=false"
  = Some "The room is dark."
  ∧ graphContent (buildGraph 10 conditionalScript) "index|power_on=true"
    = Some "The lights are on.".
Proof. split; vm_compute; reflexivity. Qed.

Example TestUnreachableStatePruning :
  graphKeys (buildGraph 10 pruningScript)
  = Some {[ "index|has_key=false"; "door|has_key=true";
            "victory|has_key=true" ]}.
Proof. vm_compute. reflexivity. Qed.

(** The two errors. *)
Example buildGraph_no_index :
  buildGraph 10 headlessScript
  = Some (Err "script must contain a starting knot named 'index'").
Proof. reflexivity. Qed.

Example buildGraph_dangling :
  buildGraph 10 danglingScript
  = Some (Err "choice leads to non-existent knot: 'nowhere'").
Proof. vm_compute. reflexivity. Qed.

Lemma checkNodes_true r check :
  checkNodes r check = true →
  ∃ g, r = Some (Ok g)
       ∧ ∀ id node, Graph g !! id = Some node → check node = true.
Proof.
  destruct r as [[g| |]|]; cbn [checkNodes]; intros H; try discriminate H.
  apply bool_decide_eq_true in H. exists g. split; [done|].
  intros id node Hnode. exact (map_Forall_lookup_1 _ _ _ _ H Hnode).
Qed.

Lemma checkEdge_true r id i check :
  checkEdge r id i check = true →
  ∃ g node edge node',
    r = Some (Ok g)
    ∧ Graph g !! id = Some node
    ∧ Edges node !! i = Some edge
    ∧ Graph g !! TargetNodeID edge = Some node'
    ∧ check node edge node' = true.
Proof.
  destruct r as [[g| |]|]; try done. simpl.
  destruct (Graph g !! id) as [node|] eqn:E1; [|done].
  destruct (Edges node !! i) as [edge|] eqn:E2; [|done].
  destruct (Graph g !! TargetNodeID edge) as [node'|] eqn:E3; [|done].
  intros H. by exists g, node, edge, node'.
Qed.

Lemma simpleScript_run : ∃ g, buildGraph 10 simpleScript = Some (Ok g).
Proof.
  destruct (checkNodes_true (buildGraph 10 simpleScript) (λ _, true))
    as (g & E & _); [vm_compute; reflexivity|]. exists g. exact E.
Qed.

Lemma stitchScript_run :
  ∃ g node edge node',
    buildGraph 10 stitchScript = Some (Ok g)
    ∧ Graph g !! "index|seen=true" = Some node
    ∧ Edges node !! 1%nat = Some edge
    ∧ edgeStitch edge = ".side"
    ∧ Graph g !! TargetNodeID edge = Some node'
    ∧ KnotName node = "index" ∧ KnotName node' = "side"
    ∧ State node !! "seen" = Some true
    ∧ State node' !! "seen" = Some false.
Proof.
  destruct (checkEdge_true (buildGraph 10 stitchScript) "index|seen=true" 1
    (λ node edge node', bool_decide
       (edgeStitch edge = ".side"
        ∧ KnotName node = "index" ∧ KnotName node' = "side"
        ∧ State node !! "seen" = Some true
        ∧ State node' !! "seen" = Some false)))
    as (g & node & edge & node' & E & Hnode & Hedge & Hnode' & H);
    [vm_compute; reflexivity|].
  apply bool_decide_eq_true in H as (H1 & H2 & H3 & H4 & H5).
  exists g, node, edge, node'. repeat split; assumption.
Qed.

(** ** The graph that is returned *)

(** C5: no dangling edges.  Every edge of a returned graph refers to a key
    of that graph; the same holds, together with [visited] being the key
    set, when the loop is entered, and every fully processed choice keeps
    it. *)
Theorem C5_no_dangling_edges (ast : Script) :
  (∀ fuel g, buildGraph fuel ast = Some (Ok g) → noDanglingEdges (Graph g))
  ∧ (∀ indexKnot st,
       rootState ast indexKnot = Ok st →
       dom (bsGraph st) = bsVisited st ∧ noDanglingEdges (bsGraph st))
  ∧ (∀ key currentNode currentKnot st choice st',
       dom (bsGraph st) = bsVisited st → noDanglingEdges (bsGraph st) →
       processChoice ast key currentNode currentKnot st choice = Ok st' →
       dom (bsGraph st') = bsVisited st' ∧ noDanglingEdges (bsGraph st')).
Proof.
  split; [|split].
  - intros fuel g Hbuild. by eapply graph_noDangling.
  - intros indexKnot st. unfold rootState.
    destruct (createNode_Ok "index" indexKnot (initialState ast))
      as [content ->]. simpl. intros [= <-]. simpl.
    split; [by rewrite dom_singleton_L|].
    by intros id node edge [-> <-]%lookup_singleton_Some ?%elem_of_nil.
  - intros key cur knot st choice st' Hdom Hno Hstep.
    apply processChoice_Ok in Hstep
      as [[_ ->]|(target & knot' & next & content & _ & ->)]; [done|].
    split; [by apply register_visited|].
    intros id node edge Hnode Hedge.
    apply register_lookup_inv in Hnode
      as [(-> & -> & _)|(node0 & H0 & ->)].
    { by apply elem_of_nil in Hedge. }
    assert (edge ∈ Edges node0 ∨ edge = edgeFor choice target next)
      as [Hold| ->].
    { case_decide; [|by left]. simpl in Hedge.
      apply elem_of_app in Hedge as [?|?%list_elem_of_singleton]; auto. }
    + destruct (Hno _ _ _ H0 Hold) as [t Ht].
      erewrite register_lookup; [by eexists|done..].
    + by apply register_target.
Qed.

Lemma C5_witness :
  ∃ g, buildGraph 10 simpleScript = Some (Ok g) ∧ noDanglingEdges (Graph g).
Proof.
  destruct simpleScript_run as [g E]. exists g. split; [exact E|].
  exact (proj1 (C5_no_dangling_edges simpleScript) 10 g E).
Defined.

(** C2, as stated, fails: the edge of a local-anchor jump leads to the
    unit named by the anchor, and the locals are purged when that unit
    lies in another scene. *)
Lemma C2_counterexample :
  ∃ g node edge node',
    buildGraph 10 stitchScript = Some (Ok g)
    ∧ Graph g !! "index|seen=true" = Some node
    ∧ Edges node !! 1%nat = Some edge
    ∧ edgeStitch edge = ".side"
    ∧ Graph g !! TargetNodeID edge = Some node'
    ∧ KnotName node = "index" ∧ KnotName node' = "side"
    ∧ State node !! "seen" = Some true
    ∧ State node' !! "seen" = Some false.
Proof. exact stitchScript_run. Qed.

(** C2, amended: for every edge that carries a local-anchor marker, the
    destination is the unit named by the marker without its leading "."
    (an explicit target of the choice is not consulted; only when nothing
    is left of the marker is the destination the current unit); that unit
    exists; the identity on the edge is that of this unit with the
    successor state, in which the locals are purged exactly when the
    scene of that unit differs from the scene of the source unit; and the
    identity is a key of the graph. *)
Theorem C2_stitch_leads_to_the_named_unit
    (ast : Script) (fuel : nat) (g : StoryGraph) (id : string)
    (node : StoryNode) (edge : StoryEdge)
    (Hbuild : buildGraph fuel ast = Some (Ok g))
    (Hnode : Graph g !! id = Some node)
    (Hedge : edge ∈ Edges node)
    (Hstitch : edgeStitch edge ≠ "") :
  ∃ currentKnot choice targetKnotName targetKnot nextState,
    Knots ast !! KnotName node = Some currentKnot
    ∧ choice ∈ Choices currentKnot
    ∧ Stitch choice = edgeStitch edge
    ∧ targetKnotName
      = (if decide (TrimPrefix (Stitch choice) "." = "")
         then KnotName node else TrimPrefix (Stitch choice) ".")
    ∧ Knots ast !! targetKnotName = Some targetKnot
    ∧ applyStateChanges (State node) choice ast = Some nextState
    ∧ TargetNodeID edge
      = generateNodeID targetKnotName
          (if decide (Scene currentKnot = Scene targetKnot) then nextState
           else setFalse (LocalStates ast) nextState)
    ∧ is_Some (Graph g !! TargetNodeID edge).
Proof.
  destruct (graph_edge _ _ _ Hbuild _ _ _ Hnode Hedge)
    as (knot & choice & target & next & Hknot & Hchoice & Hleads & ->).
  destruct Hleads as [next0 target knot' _ Happly Hdest Htarget].
  exists knot, choice, target, knot', next0. simpl in Hstitch.
  repeat split; try done.
  - unfold resolveDestination in Hdest.
    rewrite (decide_False (P := Stitch choice = "")) in Hdest by done.
    repeat case_decide; by simplify_eq.
  - exact (graph_noDangling _ _ _ Hbuild _ _ _ Hnode Hedge).
Qed.

Lemma C2_witness :
  ∃ g node edge,
    buildGraph 10 stitchScript = Some (Ok g)
    ∧ Graph g !! "index|seen=true" = Some node
    ∧ edge ∈ Edges node
    ∧ edgeStitch edge ≠ ""
    ∧ is_Some (Graph g !! TargetNodeID edge).
Proof.
  destruct stitchScript_run
    as (g & node & edge & _ & E & Hnode & Hedge & Hstitch & _).
  apply list_elem_of_lookup_2 in Hedge.
  assert (edgeStitch edge ≠ "") as Hne by (rewrite Hstitch; discriminate).
  exists g, node, edge. repeat split; try assumption.
  destruct (C2_stitch_leads_to_the_named_unit stitchScript 10 g _ node edge
    E Hnode Hedge Hne)
    as (? & ? & ? & ? & ? & _ & _ & _ & _ & _ & _ & _ & H).
  exact H.
Defined.

(** C1, as stated, fails: in [ambiguousScript] the pair (a|b, {c = true})
    is reachable by the second choice of the entry unit, yet the returned
    graph has no node of unit [a|b], because the identity of that pair is
    also the identity of (a, {b|c = true}), registered before. *)
Lemma C1_counterexample :
  reachable ambiguousScript "a|b" {[ "c" := true ]}
  ∧ ∃ g, buildGraph 10 ambiguousScript = Some (Ok g)
         ∧ ∀ id node, Graph g !! id = Some node → KnotName node ≠ "a|b".
Proof.
  split.
  - assert (∃ indexKnot choice,
      Knots ambiguousScript !! "index" = Some indexKnot
      ∧ Choices indexKnot !! 1%nat = Some choice
      ∧ followChoice ambiguousScript "index" (initialState ambiguousScript)
          indexKnot choice
        = Ok (Leads "a|b" (knot0 "a|b") {[ "c" := true ]}))
      as (indexKnot & choice & Hindex & Hchoice & Hfollow).
    { do 2 eexists. split; [vm_compute; reflexivity|].
      split; [reflexivity|]. vm_compute. reflexivity. }
    apply followChoice_Leads in Hfollow as [_ Hleads].
    eapply reachable_choice; [by eapply reachable_entry|exact Hindex| |
      exact Hleads].
    by eapply list_elem_of_lookup_2.
  - destruct (checkNodes_true (buildGraph 10 ambiguousScript)
      (λ node, bool_decide (KnotName node ≠ "a|b")))
      as (g & E & H); [vm_compute; reflexivity|].
    exists g. split; [exact E|]. intros id node Hnode.
    eapply bool_decide_eq_true, H, Hnode.
Qed.

(** C1, amended: for every script on which [buildGraph] succeeds, every
    node of the returned graph is a (unit, state) pair that some finite
    sequence of condition-satisfied choices produces from the entry unit
    with every declared variable [false], it is stored under its own
    canonical identity, and no pair is stored twice; and when no two
    reachable pairs share an identity, which is the case whenever every
    mutation of the script assigns a declared variable, a pair is a node
    if and only if it is reachable. *)
Theorem C1_nodes_are_the_reachable_pairs
    (ast : Script) (fuel : nat) (g : StoryGraph)
    (Hbuild : buildGraph fuel ast = Some (Ok g)) :
  (∀ id node,
     Graph g !! id = Some node →
     reachable ast (KnotName node) (State node)
     ∧ id = generateNodeID (KnotName node) (State node))
  ∧ (∀ id1 id2 node1 node2,
       Graph g !! id1 = Some node1 → Graph g !! id2 = Some node2 →
       KnotName node1 = KnotName node2 → State node1 = State node2 →
       id1 = id2)
  ∧ (distinctIdentities ast →
     ∀ knotName state,
       reachable ast knotName state ↔
       ∃ node, Graph g !! generateNodeID knotName state = Some node
               ∧ KnotName node = knotName ∧ State node = state)
  ∧ (declaresMutations ast → distinctIdentities ast)
  ∧ (∀ name, initialState ast !! name
             = if decide (name ∈ declared ast) then Some false else None).
Proof.
  split; [|split; [|split; [|split]]]; [..|apply initialState_lookup].
  - intros id node Hnode. split; [by eapply graph_reachable|].
    by eapply graph_key.
  - intros id1 id2 node1 node2 H1 H2 Hk Hs.
    rewrite (graph_key _ _ _ Hbuild _ _ H1), (graph_key _ _ _ Hbuild _ _ H2).
    by rewrite Hk, Hs.
  - intros Hdistinct knotName state. split.
    + by eapply graph_complete.
    + intros (node & Hnode & <- & <-). by eapply graph_reachable.
  - apply declaresMutations_distinctIdentities.
Qed.

Lemma simpleScript_declares : declaresMutations simpleScript.
Proof. apply (bool_decide_unpack _). vm_compute. exact I. Qed.

Lemma C1_witness :
  ∃ g, buildGraph 10 simpleScript = Some (Ok g)
       ∧ ∀ knotName state,
           reachable simpleScript knotName state ↔
           ∃ node, Graph g !! generateNodeID knotName state = Some node
                   ∧ KnotName node = knotName ∧ State node = state.
Proof.
  destruct simpleScript_run as [g E]. exists g. split; [exact E|].
  destruct (C1_nodes_are_the_reachable_pairs simpleScript 10 g E)
    as (_ & _ & Hiff & Hdistinct & _).
  exact (Hiff (Hdistinct simpleScript_declares)).
Defined.

(** C3, as stated, fails: in [ambiguousFlagScript] the third choice of the
    entry unit, taken with the flag [v] true, leads to (x, {v = true,
    v|v = false}), whose identity is that of the node (x|v=true,v,
    {v = false}) registered before; the node the edge refers to has the
    flag [false]. *)
Lemma C3_counterexample :
  ∃ g node edge node',
    buildGraph 10 ambiguousFlagScript = Some (Ok g)
    ∧ isFlag ambiguousFlagScript "v"
    ∧ (∀ v, isFlag ambiguousFlagScript v → ¬ isLocal ambiguousFlagScript v)
    ∧ Graph g !! "index|v=true" = Some node
    ∧ Edges node !! 2%nat = Some edge
    ∧ Graph g !! TargetNodeID edge = Some node'
    ∧ State node !! "v" = Some true
    ∧ State node' !! "v" = Some false.
Proof.
  destruct (checkEdge_true (buildGraph 10 ambiguousFlagScript)
    "index|v=true" 2
    (λ node edge node', bool_decide
       (State node !! "v" = Some true ∧ State node' !! "v" = Some false)))
    as (g & node & edge & node' & E & Hnode & Hedge & Hnode' & H);
    [vm_compute; reflexivity|].
  apply bool_decide_eq_true in H as [H1 H2].
  exists g, node, edge, node'. split; [exact E|]. split; [reflexivity|].
  split; [intros v _ [b Hb]; discriminate Hb|]. repeat split; assumption.
Qed.

(** C3, amended: a mutation that sets a flag to [false] is ignored by
    [applyStateChanges] wherever it stands in the list; in a script whose
    flags are not also locals, every choice leaves a true flag true in the
    successor state it computes; and when no two reachable pairs share an
    identity (in particular when every mutation assigns a declared
    variable), a flag that is true in the source node of an edge of the
    returned graph is true in the node the edge refers to. *)
Theorem C3_flag_monotonicity
    (ast : Script)
    (Hdisjoint : ∀ v, isFlag ast v → ¬ isLocal ast v) :
  (∀ state choice before change after,
     StateChanges choice = before ++ change :: after →
     isFlag ast (mutatedName change) → mutatedValue change = Some false →
     applyStateChanges state choice ast
     = applyChanges ast state (before ++ after))
  ∧ (∀ state choice state' v,
       isFlag ast v → applyStateChanges state choice ast = Some state' →
       state !! v = Some true → state' !! v = Some true)
  ∧ (∀ knotName state currentKnot choice targetKnotName nextState v,
       isFlag ast v →
       choiceLeads ast knotName state currentKnot choice targetKnotName
         nextState →
       state !! v = Some true → nextState !! v = Some true)
  ∧ (distinctIdentities ast →
     ∀ fuel g id node edge node' v,
       buildGraph fuel ast = Some (Ok g) →
       Graph g !! id = Some node → edge ∈ Edges node →
       Graph g !! TargetNodeID edge = Some node' →
       isFlag ast v →
       State node !! v = Some true → State node' !! v = Some true).
Proof.
  split; [|split; [|split]].
  - intros state choice before change after Hchanges Hflag Hvalue.
    unfold applyStateChanges. rewrite Hchanges.
    by apply applyChanges_flag_false.
  - intros state choice state' v Hflag Happly Hv.
    by eapply applyChanges_flag_true.
  - intros knotName state knot choice target next v Hflag Hleads Hv.
    eapply choiceLeads_flag; eauto.
  - intros Hdistinct fuel g id node edge node' v Hbuild Hnode Hedge Hnode'
      Hflag Hv.
    destruct (graph_edge_target _ _ _ Hbuild _ _ _ _ Hdistinct Hnode Hedge
      Hnode') as (knot & choice & _ & _ & _ & Hleads).
    eapply choiceLeads_flag; eauto.
Qed.

Lemma flagScript_declares : declaresMutations flagScript.
Proof. apply (bool_decide_unpack _). vm_compute. exact I. Qed.

Lemma flagScript_run :
  ∃ g node edge node',
    buildGraph 10 flagScript = Some (Ok g)
    ∧ Graph g !! "next|major_event=true" = Some node
    ∧ Edges node !! 0%nat = Some edge
    ∧ Graph g !! TargetNodeID edge = Some node'
    ∧ State node !! "major_event" = Some true.
Proof.
  destruct (checkEdge_true (buildGraph 10 flagScript)
    "next|major_event=true" 0
    (λ node edge node', bool_decide
       (State node !! "major_event" = Some true)))
    as (g & node & edge & node' & E & Hnode & Hedge & Hnode' & H);
    [vm_compute; reflexivity|].
  apply bool_decide_eq_true in H.
  exists g, node, edge, node'. repeat split; assumption.
Qed.

Lemma C3_witness :
  (∀ v, isFlag flagScript v → ¬ isLocal flagScript v)
  ∧ ∃ g node edge node',
      buildGraph 10 flagScript = Some (Ok g)
      ∧ Graph g !! "next|major_event=true" = Some node
      ∧ edge ∈ Edges node
      ∧ Graph g !! TargetNodeID edge = Some node'
      ∧ State node' !! "major_event" = Some true.
Proof.
  assert (∀ v, isFlag flagScript v → ¬ isLocal flagScript v) as Hdisjoint.
  { intros v _ [b Hb]. discriminate Hb. }
  split; [exact Hdisjoint|].
  destruct flagScript_run as (g & node & edge & node' & E & Hnode & Hedge
    & Hnode' & Hv).
  apply list_elem_of_lookup_2 in Hedge.
  exists g, node, edge, node'. repeat split; try assumption.
  destruct (C3_flag_monotonicity flagScript Hdisjoint) as (_ & _ & _ & H).
  apply (H (declaresMutations_distinctIdentities _ flagScript_declares)
    10 g _ node edge node' "major_event" E Hnode Hedge Hnode');
    [reflexivity|exact Hv].
Defined.

(** C4, as stated, fails: in [ambiguousLocalScript] the choice of unit
    [other] (scene A) leads to (x|l=true,l, {l = false}), whose identity
    is that of the node (x, {l = true, l|l = false}) of scene B registered
    before; the node the edge refers to lies in another scene than the
    source and has the local [l] true. *)
Lemma C4_counterexample :
  ∃ g node edge node' knot knot',
    buildGraph 10 ambiguousLocalScript = Some (Ok g)
    ∧ isLocal ambiguousLocalScript "l"
    ∧ Graph g !! "other|l=false" = Some node
    ∧ Edges node !! 0%nat = Some edge
    ∧ Graph g !! TargetNodeID edge = Some node'
    ∧ Knots ambiguousLocalScript !! KnotName node = Some knot
    ∧ Knots ambiguousLocalScript !! KnotName node' = Some knot'
    ∧ Scene knot = "A" ∧ Scene knot' = "B"
    ∧ State node' !! "l" = Some true.
Proof.
  destruct (checkEdge_true (buildGraph 10 ambiguousLocalScript)
    "other|l=false" 0
    (λ node edge node', bool_decide
       (Scene <$> Knots ambiguousLocalScript !! KnotName node = Some "A"
        ∧ Scene <$> Knots ambiguousLocalScript !! KnotName node' = Some "B"
        ∧ State node' !! "l" = Some true)))
    as (g & node & edge & node' & E & Hnode & Hedge & Hnode' & H);
    [vm_compute; reflexivity|].
  apply bool_decide_eq_true in H as (H1 & H2 & H3).
  apply fmap_Some in H1 as (knot & Hknot & Hs).
  apply fmap_Some in H2 as (knot' & Hknot' & Hs').
  exists g, node, edge, node', knot, knot'. split; [exact E|].
  split; [by eexists|].
  repeat split; (assumption || (symmetry; assumption)).
Qed.

(** C4, amended: a choice whose destination unit has another scene label
    than the current unit (plain string comparison, the empty label
    included) computes a successor state in which every local is [false];
    the scene recorded in a node is the scene of its unit; and when no two
    reachable pairs share an identity (in particular when every mutation
    assigns a declared variable), for every edge of the returned graph
    whose source and target nodes have different scene labels every local
    is [false] in the target node. *)
Theorem C4_scene_purge (ast : Script) :
  (∀ knotName state currentKnot choice targetKnotName targetKnot nextState l,
     choiceLeads ast knotName state currentKnot choice targetKnotName
       nextState →
     Knots ast !! targetKnotName = Some targetKnot →
     Scene currentKnot ≠ Scene targetKnot → isLocal ast l →
     nextState !! l = Some false)
  ∧ (∀ fuel g id node,
       buildGraph fuel ast = Some (Ok g) → Graph g !! id = Some node →
       ∃ knot, Knots ast !! KnotName node = Some knot
               ∧ nodeScene node = Scene knot)
  ∧ (distinctIdentities ast →
     ∀ fuel g id node edge node' l,
       buildGraph fuel ast = Some (Ok g) →
       Graph g !! id = Some node → edge ∈ Edges node →
       Graph g !! TargetNodeID edge = Some node' →
       nodeScene node ≠ nodeScene node' → isLocal ast l →
       State node' !! l = Some false).
Proof.
  split; [|split].
  - intros. by eapply choiceLeads_purge.
  - intros fuel g id node Hbuild Hnode. by eapply graph_knot.
  - intros Hdistinct fuel g id node edge node' l Hbuild Hnode Hedge Hnode'
      Hscene Hlocal.
    destruct (graph_edge_target _ _ _ Hbuild _ _ _ _ Hdistinct Hnode Hedge
      Hnode') as (knot & choice & Hknot & _ & _ & Hleads).
    destruct (graph_knot _ _ _ Hbuild _ _ Hnode) as (knot0 & Hknot0 & Hs).
    destruct (graph_knot _ _ _ Hbuild _ _ Hnode') as (knot' & Hknot' & Hs').
    assert (knot0 = knot) as -> by congruence.
    eapply choiceLeads_purge; [done..| |done]. congruence.
Qed.

Lemma localScript_declares : declaresMutations localScript.
Proof. apply (bool_decide_unpack _). vm_compute. exact I. Qed.

Lemma localScript_run :
  ∃ g node edge node',
    buildGraph 10 localScript = Some (Ok g)
    ∧ Graph g !! "room1|global_quest_active=false,has_room_key=true"
      = Some node
    ∧ Edges node !! 1%nat = Some edge
    ∧ Graph g !! TargetNodeID edge = Some node'
    ∧ nodeScene node = "bedroom" ∧ nodeScene node' = "corridor"
    ∧ TargetNodeID edge
      = "hallway|global_quest_active=false,has_room_key=false".
Proof.
  destruct (checkEdge_true (buildGraph 10 localScript)
    "room1|global_quest_active=false,has_room_key=true" 1
    (λ node edge node', bool_decide
       (nodeScene node = "bedroom" ∧ nodeScene node' = "corridor"
        ∧ TargetNodeID edge
          = "hallway|global_quest_active=false,has_room_key=false")))
    as (g & node & edge & node' & E & Hnode & Hedge & Hnode' & H);
    [vm_compute; reflexivity|].
  apply bool_decide_eq_true in H as (H1 & H2 & H3).
  exists g, node, edge, node'. repeat split; assumption.
Qed.

Lemma C4_witness :
  ∃ g node edge node',
    buildGraph 10 localScript = Some (Ok g)
    ∧ Graph g !! "room1|global_quest_active=false,has_room_key=true"
      = Some node
    ∧ edge ∈ Edges node
    ∧ Graph g !! TargetNodeID edge = Some node'
    ∧ nodeScene node ≠ nodeScene node'
    ∧ State node' !! "has_room_key" = Some false.
Proof.
  destruct localScript_run as (g & node & edge & node' & E & Hnode & Hedge
    & Hnode' & Hs & Hs' & _).
  apply list_elem_of_lookup_2 in Hedge.
  assert (nodeScene node ≠ nodeScene node') as Hscene
    by (rewrite Hs, Hs'; discriminate).
  exists g, node, edge, node'. repeat split; try assumption.
  destruct (C4_scene_purge localScript) as (_ & _ & H).
  apply (H (declaresMutations_distinctIdentities _ localScript_declares)
    10 g _ node edge node' "has_room_key" E Hnode Hedge Hnode' Hscene).
  by eexists.
Defined.

(** ** Termination *)

Section termination_facts.

Context (ast : Script).

Implicit Types (state : gmap string bool) (knot : Knot)
  (choice : Choice) (st : BuildState) (node : StoryNode)
  (processed : gset string).

Lemma allStates_complete (names : list string) state :
  dom state ⊆ list_to_set names → state ∈ allStates names.
Proof.
  revert state. induction names as [|name names IH]; intros state Hdom.
  { simpl in Hdom. assert (state = ∅) as ->; [|by left].
    apply dom_empty_inv_L. set_solver. }
  cbn [allStates]. rewrite list_to_set_cons in Hdom.
  destruct (state !! name) as [b|] eqn:E.
  - assert (delete name state ∈ allStates names) as Hin.
    { apply IH. rewrite dom_delete_L. set_solver. }
    assert (state = <[name := b]> (delete name state)) as ->
      by (by rewrite insert_delete_eq, insert_id).
    rewrite !elem_of_app, !list_elem_of_fmap. destruct b; eauto.
  - apply elem_of_app. left. apply IH. apply not_elem_of_dom in E.
    set_solver.
Qed.

Lemma elem_of_identities knotName state :
  is_Some (Knots ast !! knotName) → dom state ⊆ variables ast →
  generateNodeID knotName state ∈ identities ast.
Proof.
  intros [knot Hknot] Hdom. unfold identities.
  apply elem_of_list_to_set, list_elem_of_bind. exists knotName. split.
  - apply list_elem_of_fmap. exists state. split; [done|].
    apply allStates_complete. by rewrite list_to_set_elements_L.
  - apply list_elem_of_fmap. exists (knotName, knot). split; [done|].
    by apply elem_of_map_to_list.
Qed.

Lemma choiceLeads_variables knotName state currentKnot choice targetKnotName
    nextState :
  Knots ast !! knotName = Some currentKnot → choice ∈ Choices currentKnot →
  choiceLeads ast knotName state currentKnot choice targetKnotName
    nextState →
  dom state ⊆ variables ast → dom nextState ⊆ variables ast.
Proof.
  intros Hknot Hchoice Hleads Hdom v Hv.
  apply (choiceLeads_dom ast _ _ _ _ _ _ Hknot Hchoice Hleads) in Hv.
  unfold variables, declared.
  apply elem_of_union in Hv as [Hv|Hv]; [|by apply Hdom].
  apply elem_of_union in Hv as [Hv|Hv]; [set_solver|].
  apply elem_of_union_r, elem_of_list_to_set, list_elem_of_fmap.
  apply elem_of_list_to_set, list_elem_of_fmap in Hv
    as (change & -> & Hchange).
  exists change. split; [done|]. by eapply elem_of_allChanges.
Qed.

Lemma register_boundInv processed key edge knotName knot state content st :
  boundInv ast processed st →
  dom (bsGraph st) = bsVisited st →
  is_Some (Knots ast !! knotName) → dom state ⊆ variables ast →
  boundInv ast processed
    (register key edge (generateNodeID knotName state)
       (newNode knotName knot state content) st).
Proof.
  intros [Hv Hnd Hdisj Hids Hstates] Hdom Hknot Hvars.
  pose proof (elem_of_identities _ _ Hknot Hvars) as Hid.
  split.
  - unfold register. case_decide; simpl; [done|].
    rewrite list_to_set_app_L, Hv. simpl. set_solver.
  - unfold register. case_decide as Hfresh; simpl; [done|].
    apply NoDup_app. split; [done|]. split; [|apply NoDup_singleton].
    intros k Hk ->%list_elem_of_singleton. apply Hfresh. rewrite Hv.
    apply elem_of_union_r, elem_of_list_to_set, Hk.
  - intros k [Hk|[-> Hfresh]]%register_queue; [by apply Hdisj|].
    intros Hp. apply Hfresh. rewrite Hv. by apply elem_of_union_l.
  - unfold register. case_decide; simpl; [done|]. set_solver.
  - intros id node [(-> & -> & _)|(node0 & H0 & ->)]%register_lookup_inv;
      [done|].
    assert (State (if decide (id = key) then addEdge edge node0 else node0)
            = State node0) as -> by (by case_decide).
    by eapply Hstates.
Qed.

Lemma processChoices_boundInv processed key currentNode currentKnot choices :
  Knots ast !! KnotName currentNode = Some currentKnot →
  dom (State currentNode) ⊆ variables ast →
  ∀ st st',
    (∀ choice, choice ∈ choices → choice ∈ Choices currentKnot) →
    boundInv ast processed st → dom (bsGraph st) = bsVisited st →
    processChoices ast key currentNode currentKnot st choices = Ok st' →
    boundInv ast processed st' ∧ dom (bsGraph st') = bsVisited st'.
Proof.
  intros Hknot Hvars. induction choices as [|choice choices IH];
    intros st st' Hsub Hinv Hdom Hrun.
  { by injection Hrun as <-. }
  cbn [processChoices] in Hrun.
  destruct (processChoice ast key currentNode currentKnot st choice)
    as [st1| |] eqn:Hstep; try done. simpl in Hrun.
  assert (choice ∈ Choices currentKnot) as Hchoice by (apply Hsub; by left).
  assert (boundInv ast processed st1 ∧ dom (bsGraph st1) = bsVisited st1)
    as [Hinv1 Hdom1].
  { apply processChoice_Ok in Hstep
      as [[_ ->]|(target & knot' & next & content & Hfollow & ->)]; [done|].
    apply followChoice_Leads in Hfollow as [Htarget Hleads].
    split; [|by apply register_visited].
    apply register_boundInv; [done|done|by eexists|].
    exact (choiceLeads_variables _ _ _ _ _ _ Hknot Hchoice Hleads Hvars). }
  apply (IH st1); [|done..]. intros c Hc. apply Hsub. by right.
Qed.

Lemma processNode_boundInv processed key queue st st' :
  bsQueue st = key :: queue →
  boundInv ast processed st → dom (bsGraph st) = bsVisited st →
  processNode ast key (dequeued st queue) = Ok st' →
  boundInv ast ({[key]} ∪ processed) st'
  ∧ dom (bsGraph st') = bsVisited st'.
Proof.
  intros Hq [Hv Hnd Hdisj Hids Hstates] Hdom Hrun. unfold processNode in Hrun.
  cbn [dequeued bsGraph] in Hrun.
  destruct (bsGraph st !! key) as [cur|] eqn:Hcur; [|done]. simpl in Hrun.
  destruct (Knots ast !! KnotName cur) as [knot|] eqn:Hknot; [|done].
  simpl in Hrun. rewrite Hq in Hv, Hnd, Hdisj.
  apply NoDup_cons in Hnd as [Hkey Hnd].
  eapply processChoices_boundInv in Hrun; [done|done|by eapply Hstates|done| |
    done].
  split; simpl; [|done| |done|done].
  - rewrite Hv, list_to_set_cons. set_solver.
  - intros k Hk [->%elem_of_singleton|Hp]%elem_of_union; [done|].
    eapply Hdisj; [|done]. by right.
Qed.

Lemma traverse_terminates fuel processed st :
  boundInv ast processed st → dom (bsGraph st) = bsVisited st →
  size (identities ast) < fuel + size processed →
  ∃ r, traverse fuel ast st = Some r.
Proof.
  revert processed st. induction fuel as [|fuel IH];
    intros processed st Hinv Hdom Hsize.
  - destruct (bsQueue st) as [|key queue] eqn:Hq.
    { exists (Ok st). simpl. by rewrite Hq. }
    destruct Hinv as [Hv Hnd Hdisj Hids Hstates].
    assert ({[key]} ∪ processed ⊆ identities ast) as Hsub.
    { etrans; [|exact Hids]. rewrite Hv, Hq, list_to_set_cons. set_solver. }
    apply subseteq_size in Hsub.
    rewrite size_union, size_singleton in Hsub; [simpl in Hsize; lia|].
    apply disjoint_singleton_l, Hdisj. rewrite Hq. by left.
  - cbn [traverse]. destruct (bsQueue st) as [|key queue] eqn:Hq.
    { by eexists. }
    destruct (processNode ast key (dequeued st queue)) as [st1| |] eqn:Hnode;
      [|by eexists..].
    pose proof (bound_disjoint _ _ _ Hinv key) as Hfresh.
    eapply processNode_boundInv in Hnode as [Hinv1 Hdom1]; [|done..].
    apply (IH ({[key]} ∪ processed)); [done..|].
    rewrite size_union, size_singleton; [lia|].
    apply disjoint_singleton_l, Hfresh. rewrite Hq. by left.
Qed.

Lemma rootState_boundInv indexKnot st :
  Knots ast !! "index" = Some indexKnot →
  rootState ast indexKnot = Ok st →
  boundInv ast ∅ st ∧ dom (bsGraph st) = bsVisited st.
Proof.
  intros Hindex. unfold rootState.
  destruct (createNode_Ok "index" indexKnot (initialState ast))
    as [content ->]. simpl. intros [= <-].
  assert (dom (initialState ast) ⊆ variables ast) as Hvars.
  { rewrite initialState_dom. unfold variables. set_solver. }
  pose proof (elem_of_identities "index" (initialState ast)
    (mk_is_Some _ _ Hindex) Hvars) as Hid.
  cbn [newNode KnotName State].
  set (id := generateNodeID "index" (initialState ast)) in *.
  split; [split|]; cbn [bsGraph bsQueue bsVisited].
  - set_solver.
  - apply NoDup_singleton.
  - set_solver.
  - set_solver.
  - by intros i node [-> <-]%lookup_singleton_Some.
  - by rewrite dom_singleton_L.
Qed.

(** More fuel does not change a result. *)
Lemma traverse_fuel_mono fuel fuel' st r :
  traverse fuel ast st = Some r → fuel ≤ fuel' →
  traverse fuel' ast st = Some r.
Proof.
  revert fuel' st. induction fuel as [|fuel IH]; intros fuel' st Hrun Hle.
  - simpl in Hrun. destruct (bsQueue st) eqn:Hq; [|done].
    destruct fuel'; simpl; by rewrite Hq.
  - destruct fuel' as [|fuel']; [lia|]. cbn [traverse] in Hrun |- *.
    destruct (bsQueue st) as [|key queue]; [done|].
    destruct (processNode ast key (dequeued st queue)); [|done..].
    apply IH; [done|lia].
Qed.

Lemma buildGraph_fuel_mono fuel fuel' r :
  buildGraph fuel ast = Some r → fuel ≤ fuel' →
  buildGraph fuel' ast = Some r.
Proof.
  unfold buildGraph. intros Hrun Hle.
  destruct (Knots ast !! "index") as [indexKnot|]; [|done].
  destruct (rootState ast indexKnot) as [st| |]; [|done..].
  destruct (traverse fuel ast st) as [r0|] eqn:E; [|done].
  by rewrite (traverse_fuel_mono _ _ _ _ E Hle).
Qed.

(** The fuel of [fuelBound] always suffices. *)
Lemma buildGraph_terminates : ∃ r, buildGraph (fuelBound ast) ast = Some r.
Proof.
  unfold buildGraph.
  destruct (Knots ast !! "index") as [indexKnot|] eqn:Hindex; [|by eexists].
  destruct (rootState ast indexKnot) as [st| |] eqn:Hroot; [|by eexists..].
  apply rootState_boundInv in Hroot as [Hinv Hdom]; [|done].
  destruct (traverse_terminates (fuelBound ast) ∅ st Hinv Hdom) as [r ->].
  { unfold fuelBound. lia. }
  destruct r; by eexists.
Qed.

(** What [buildGraph] returns does not depend on the fuel. *)
Lemma buildGraph_deterministic fuel1 fuel2 r1 r2 :
  buildGraph fuel1 ast = Some r1 → buildGraph fuel2 ast = Some r2 → r1 = r2.
Proof.
  intros H1 H2.
  apply (buildGraph_fuel_mono _ (fuel1 `max` fuel2)) in H1; [|lia].
  apply (buildGraph_fuel_mono _ (fuel1 `max` fuel2)) in H2; [|lia].
  congruence.
Qed.

End termination_facts.

(** ** Errors and panics *)

Section failure_facts.

Context (ast : Script).

Implicit Types (state : gmap string bool) (knot : Knot)
  (choice : Choice) (st : BuildState) (node : StoryNode).

Lemma followChoice_Err knotName state currentKnot choice msg :
  followChoice ast knotName state currentKnot choice = Err msg →
  ∃ targetKnotName,
    absentDestination ast knotName state choice targetKnotName
    ∧ msg = "choice leads to non-existent knot: '" +:+ targetKnotName
            +:+ "'".
Proof.
  unfold followChoice.
  destruct (choiceSkipped choice state) as [[]| |] eqn:Hskip; try done;
    cycle 1.
  { unfold choiceSkipped in Hskip. case_decide; [done|].
    by destruct (evaluateCondition_total (Condition choice) state)
      as [[] Heq]; rewrite Heq in Hskip. }
  apply choiceSkipped_false in Hskip. simpl.
  destruct (applyStateChanges state choice ast) as [next|]; [|done]. simpl.
  destruct (resolveDestination knotName choice) as [target|] eqn:Hdest;
    [|done].
  destruct (Knots ast !! target) as [knot|] eqn:Hknot; [done|].
  intros [= <-]. by exists target.
Qed.

Lemma followChoice_absent knotName state currentKnot choice targetKnotName f :
  absentDestination ast knotName state choice targetKnotName →
  followChoice ast knotName state currentKnot choice ≠ Ok f.
Proof.
  intros (Hc & Hdest & Hnone). unfold followChoice.
  apply choiceSkipped_false in Hc. rewrite Hc. simpl.
  destruct (applyStateChanges state choice ast); [|done]. simpl.
  by rewrite Hdest, Hnone.
Qed.

Lemma followChoice_no_Panic knotName state currentKnot choice :
  wellFormedMutations ast →
  Knots ast !! knotName = Some currentKnot → choice ∈ Choices currentKnot →
  followChoice ast knotName state currentKnot choice ≠ Panic.
Proof.
  intros Hwf Hknot Hchoice. unfold followChoice.
  assert (∃ skip, choiceSkipped choice state = Ok skip) as [skip ->].
  { unfold choiceSkipped. case_decide; [by eexists|].
    destruct (evaluateCondition_total (Condition choice) state) as [b ->].
    by eexists. }
  simpl. destruct skip; [done|].
  assert (is_Some (applyStateChanges state choice ast)) as [next ->].
  { apply applyChanges_is_Some, Forall_forall. intros change Hchange.
    unfold wellFormedMutations in Hwf. rewrite Forall_forall in Hwf.
    apply Hwf. by eapply elem_of_allChanges. }
  simpl. destruct (resolveDestination knotName choice) as [target|]; [|done].
  by destruct (Knots ast !! target).
Qed.

(** A failing turn of the outer loop fails at a choice of the dequeued
    node, or at the dequeued pointer itself. *)
Lemma processNode_fails key st r :
  processNode ast key st = r → (∀ st', r ≠ Ok st') →
  (bsGraph st !! key = None ∧ r = Panic)
  ∨ ∃ node,
      bsGraph st !! key = Some node
      ∧ ((Knots ast !! KnotName node = None ∧ r = Panic)
         ∨ ∃ knot choice,
             Knots ast !! KnotName node = Some knot
             ∧ choice ∈ Choices knot
             ∧ (∀ f, followChoice ast (KnotName node) (State node) knot
                       choice ≠ Ok f)
             ∧ r = match followChoice ast (KnotName node) (State node)
                           knot choice with
                   | Ok _ => Panic
                   | Err msg => Err msg
                   | Panic => Panic
                   end).
Proof.
  unfold processNode. intros Hrun Hr.
  destruct (bsGraph st !! key) as [node|]; [|by left]. right.
  exists node. split; [done|]. simpl in Hrun.
  destruct (Knots ast !! KnotName node) as [knot|]; [|by left]. right.
  simpl in Hrun.
  destruct (processChoices_fails _ _ _ _ _ _ _ Hrun Hr)
    as (choice & Hchoice & Hno & ->).
  by exists knot, choice.
Qed.

Lemma traverse_Err fuel st msg :
  outerInv ast st → traverse fuel ast st = Some (Err msg) →
  structuralError ast.
Proof.
  revert st. induction fuel as [|fuel IH]; intros st Hinv Hrun.
  { simpl in Hrun. by destruct (bsQueue st). }
  cbn [traverse] in Hrun. destruct (bsQueue st) as [|key queue] eqn:Hq;
    [done|].
  destruct (processNode ast key (dequeued st queue)) as [st1| |] eqn:Hnode.
  - apply (IH st1); [|done]. by eapply processNode_outerInv.
  - injection Hrun as ->.
    apply processNode_fails in Hnode
      as [[_ [=]]|(node & Hcur & [[_ [=]]|(knot & choice & Hknot & Hchoice
           & _ & Hr)])]; [|done].
    destruct (followChoice ast (KnotName node) (State node) knot choice)
      as [| msg'|] eqn:Hfollow; try done.
    apply followChoice_Err in Hfollow as (target & Habsent & _).
    right. exists (KnotName node), (State node), knot, choice, target.
    split; [|done]. destruct Hinv as [Hinv _].
    by eapply (inv_reachable _ _ Hinv).
  - done.
Qed.

Lemma traverse_no_Panic fuel st :
  wellFormedMutations ast → outerInv ast st →
  traverse fuel ast st ≠ Some Panic.
Proof.
  intros Hwf. revert st. induction fuel as [|fuel IH]; intros st Hinv Hrun.
  { simpl in Hrun. by destruct (bsQueue st). }
  cbn [traverse] in Hrun. destruct (bsQueue st) as [|key queue] eqn:Hq;
    [done|].
  destruct (processNode ast key (dequeued st queue)) as [st1| |] eqn:Hnode.
  - apply (IH st1); [|done]. by eapply processNode_outerInv.
  - done.
  - destruct Hinv as [Hinv _].
    destruct (processNode_fails _ _ _ Hnode)
      as [[Hnone _]|(node & Hcur & [[Hnone _]|(knot & choice & Hknot
           & Hchoice & Hno & Hr)])]; [done| | |].
    + destruct (inv_queue _ _ Hinv key) as [node Hcur];
        [rewrite Hq; by left|]. cbn [dequeued bsGraph] in Hnone. congruence.
    + destruct (inv_knot _ _ Hinv key node Hcur) as (knot & Hknot & _).
      congruence.
    + pose proof (followChoice_no_Panic (KnotName node) (State node) knot
        choice Hwf Hknot Hchoice) as Hnp.
      destruct (followChoice ast (KnotName node) (State node) knot choice)
        as [f| |]; [by destruct (Hno f)|done|done].
Qed.

Lemma buildGraph_Err fuel msg :
  buildGraph fuel ast = Some (Err msg) → structuralError ast.
Proof.
  unfold buildGraph.
  destruct (Knots ast !! "index") as [indexKnot|] eqn:Hindex; [|by left].
  destruct (rootState ast indexKnot) as [st| |] eqn:Hroot.
  - destruct (traverse fuel ast st) as [[| |]|] eqn:Hrun; try done.
    intros _. eapply traverse_Err; [|done]. by eapply rootState_outerInv.
  - unfold rootState in Hroot.
    by destruct (createNode_Ok "index" indexKnot (initialState ast))
      as [content Heq]; rewrite Heq in Hroot.
  - done.
Qed.

Lemma buildGraph_no_Panic fuel :
  wellFormedMutations ast → buildGraph fuel ast ≠ Some Panic.
Proof.
  intros Hwf. unfold buildGraph.
  destruct (Knots ast !! "index") as [indexKnot|] eqn:Hindex; [|done].
  destruct (rootState ast indexKnot) as [st| |] eqn:Hroot.
  - destruct (traverse fuel ast st) as [[| |]|] eqn:Hrun; try done.
    intros _. eapply traverse_no_Panic; [done| |done].
    by eapply rootState_outerInv.
  - done.
  - unfold rootState in Hroot.
    by destruct (createNode_Ok "index" indexKnot (initialState ast))
      as [content Heq]; rewrite Heq in Hroot.
Qed.

(** With unambiguous identities, a reachable choice with an absent
    destination keeps the builder from returning a graph. *)
Lemma buildGraph_Ok_no_error fuel g :
  distinctIdentities ast → buildGraph fuel ast = Some (Ok g) →
  ¬ structuralError ast.
Proof.
  intros Hdistinct Hbuild
    [Hno|(k & s & knot & choice & target & Hreach & Hknot & Hchoice
          & Habsent)].
  - unfold buildGraph in Hbuild. by rewrite Hno in Hbuild.
  - destruct (graph_complete _ _ _ Hbuild k s Hdistinct Hreach)
      as (node & Hnode & <- & <-).
    destruct (graph_explored _ _ _ Hbuild _ node knot Hnode Hknot node knot
      choice Hnode Hknot Hchoice) as [[f Hf] _].
    by eapply followChoice_absent.
Qed.

End failure_facts.

(** ** The entry node *)

Section entry_facts.

Context (ast : Script).

Implicit Types (st : BuildState) (choice : Choice).

Lemma register_entryNode key edge id' node' st :
  dom (bsGraph st) = bsVisited st →
  entryNode ast (bsGraph st) →
  entryNode ast (bsGraph (register key edge id' node' st)).
Proof.
  intros Hdom (node & Hnode & Hk & Hs).
  eexists. split; [by apply register_lookup|]. by case_decide.
Qed.

Lemma processChoices_entryNode key currentNode currentKnot choices st st' :
  dom (bsGraph st) = bsVisited st → entryNode ast (bsGraph st) →
  processChoices ast key currentNode currentKnot st choices = Ok st' →
  dom (bsGraph st') = bsVisited st' ∧ entryNode ast (bsGraph st').
Proof.
  revert st. induction choices as [|choice choices IH];
    intros st Hdom Hentry Hrun.
  { by injection Hrun as <-. }
  cbn [processChoices] in Hrun.
  destruct (processChoice ast key currentNode currentKnot st choice)
    as [st1| |] eqn:Hstep; try done. simpl in Hrun.
  apply processChoice_Ok in Hstep
    as [[_ ->]|(target & knot & next & content & _ & ->)].
  - by apply (IH st).
  - eapply IH; [|by apply register_entryNode|done].
    by apply register_visited.
Qed.

Lemma traverse_entryNode fuel st st' :
  dom (bsGraph st) = bsVisited st → entryNode ast (bsGraph st) →
  traverse fuel ast st = Some (Ok st') →
  entryNode ast (bsGraph st').
Proof.
  revert st. induction fuel as [|fuel IH]; intros st Hdom Hentry Hrun.
  - simpl in Hrun. destruct (bsQueue st); [|done]. by simplify_eq.
  - cbn [traverse] in Hrun. destruct (bsQueue st) as [|key queue].
    { by simplify_eq. }
    destruct (processNode ast key (dequeued st queue)) as [st1| |] eqn:Hnode;
      try done.
    unfold processNode in Hnode. cbn [dequeued bsGraph] in Hnode.
    destruct (bsGraph st !! key) as [cur|]; [|done]. simpl in Hnode.
    destruct (Knots ast !! KnotName cur) as [knot|]; [|done].
    simpl in Hnode.
    apply processChoices_entryNode in Hnode as [Hdom1 Hentry1]; [|done..].
    by apply (IH st1).
Qed.

(** The graph that [buildGraph] returns holds the entry pair. *)
Lemma buildGraph_entryNode fuel g :
  buildGraph fuel ast = Some (Ok g) → entryNode ast (Graph g).
Proof.
  unfold buildGraph.
  destruct (Knots ast !! "index") as [indexKnot|]; [|done].
  destruct (rootState ast indexKnot) as [st0| |] eqn:Hroot; try done.
  destruct (traverse fuel ast st0) as [[st1| |]|] eqn:Hrun; try done.
  intros [= <-]. simpl. eapply traverse_entryNode; [| |done].
  - unfold rootState in Hroot.
    destruct (createNode_Ok "index" indexKnot (initialState ast))
      as [content Hc]. rewrite Hc in Hroot. simpl in Hroot.
    injection Hroot as <-. simpl. by rewrite dom_singleton_L.
  - unfold rootState in Hroot.
    destruct (createNode_Ok "index" indexKnot (initialState ast))
      as [content Hc]. rewrite Hc in Hroot. simpl in Hroot.
    injection Hroot as <-. simpl. eexists.
    split; [apply lookup_singleton_eq|done].
Qed.

End entry_facts.

(** C6, as stated, fails: [malformedScript] has an entry unit and no
    choice with an absent destination, yet the builder returns neither a
    graph nor an error: the mutation without "=" makes it panic. *)
Lemma C6_counterexample :
  buildGraph 10 malformedScript = Some Panic
  ∧ ¬ structuralError malformedScript
  ∧ (∀ fuel g, buildGraph fuel malformedScript ≠ Some (Ok g)).
Proof.
  assert (buildGraph 10 malformedScript = Some Panic) as Hrun
    by (vm_compute; reflexivity).
  split; [exact Hrun|]. split.
  - intros [Hno|(k & s & knot & choice & target & _ & Hknot & Hchoice
                 & _ & Hdest & Hnone)].
    + discriminate Hno.
    + unfold malformedScript in Hknot. cbn [Knots] in Hknot.
      apply lookup_singleton_Some in Hknot as [<- <-].
      cbn [Choices] in Hchoice.
      apply list_elem_of_singleton in Hchoice as ->.
      injection Hdest as <-. discriminate Hnone.
  - intros fuel g Hg.
    pose proof (buildGraph_deterministic _ _ _ _ _ Hrun Hg). discriminate.
Qed.

(** C6, amended: for every script all of whose mutation strings contain
    "=", [buildGraph] returns, on [fuelBound] turns of its loop, either an
    error or a graph, the same whatever the fuel, and never panics; it
    returns an error only if the script has no entry unit [index] or some
    reachable pair has a condition-satisfied choice whose resolved
    destination is not a unit; without such a structural error it returns
    the complete graph: the entry pair is a node, under its identity;
    every node is a reachable pair of a unit of the script and is fully
    explored, so that each of its choices that leads somewhere has its
    edge and the target of that edge in the graph; no edge dangles; and
    when no two reachable pairs share an identity, every reachable pair
    is a node.  When no two reachable pairs share an identity, a
    structural error makes it return an error.  An error carries no
    graph. *)
Theorem C6_structural_errors
    (ast : Script) (Hwf : wellFormedMutations ast) :
  (∃ r, buildGraph (fuelBound ast) ast = Some r
        ∧ r ≠ Panic
        ∧ ∀ fuel r', buildGraph fuel ast = Some r' → r' = r)
  ∧ (∀ fuel msg,
       buildGraph fuel ast = Some (Err msg) →
       structuralError ast
       ∧ ∀ fuel' g, buildGraph fuel' ast ≠ Some (Ok g))
  ∧ (¬ structuralError ast →
     ∃ g, buildGraph (fuelBound ast) ast = Some (Ok g)
          ∧ entryNode ast (Graph g)
          ∧ (∀ id node,
               Graph g !! id = Some node →
               is_Some (Knots ast !! KnotName node)
               ∧ reachable ast (KnotName node) (State node))
          ∧ (∀ id, fullyExplored ast (Graph g) id)
          ∧ noDanglingEdges (Graph g)
          ∧ (distinctIdentities ast →
             ∀ knotName state,
               reachable ast knotName state →
               ∃ node,
                 Graph g !! generateNodeID knotName state = Some node
                 ∧ KnotName node = knotName ∧ State node = state))
  ∧ (distinctIdentities ast → structuralError ast →
     ∃ msg, buildGraph (fuelBound ast) ast = Some (Err msg)).
Proof.
  destruct (buildGraph_terminates ast) as [r Hr].
  assert (r ≠ Panic) as Hnp.
  { intros ->. by eapply buildGraph_no_Panic. }
  split; [|split; [|split]].
  - exists r. split; [done|]. split; [done|]. intros fuel r' Hr'.
    by eapply buildGraph_deterministic.
  - intros fuel msg Herr. split; [by eapply buildGraph_Err|].
    intros fuel' g Hg.
    pose proof (buildGraph_deterministic _ _ _ _ _ Herr Hg). discriminate.
  - intros Hno. destruct r as [g|msg|]; [|by apply buildGraph_Err in Hr|done].
    exists g. split; [done|].
    split; [by eapply buildGraph_entryNode|]. split; [|split; [|split]].
    + intros id node Hnode. split; [|by eapply graph_reachable].
      destruct (graph_knot _ _ _ Hr _ _ Hnode) as (knot & -> & _).
      by eexists.
    + intros id. by eapply graph_explored.
    + by eapply graph_noDangling.
    + intros Hdistinct knotName state Hreach. by eapply graph_complete.
  - intros Hdistinct Herr. destruct r as [g|msg|]; [|by exists msg|done].
    by destruct (buildGraph_Ok_no_error _ _ _ Hdistinct Hr).
Qed.

Lemma simpleScript_wellFormed : wellFormedMutations simpleScript.
Proof. apply (bool_decide_unpack _). vm_compute. exact I. Qed.

Lemma C6_witness :
  wellFormedMutations simpleScript
  ∧ ¬ structuralError simpleScript
  ∧ ∃ g, buildGraph (fuelBound simpleScript) simpleScript = Some (Ok g)
         ∧ entryNode simpleScript (Graph g)
         ∧ noDanglingEdges (Graph g).
Proof.
  assert (¬ structuralError simpleScript) as Hno.
  { destruct simpleScript_run as [g E].
    apply (buildGraph_Ok_no_error simpleScript 10 g); [|exact E].
    exact (declaresMutations_distinctIdentities simpleScript
             simpleScript_declares). }
  split; [exact simpleScript_wellFormed|]. split; [exact Hno|].
  destruct (C6_structural_errors simpleScript simpleScript_wellFormed)
    as (_ & _ & H & _).
  destruct (H Hno) as (g & Hg & Hentry & _ & _ & Hdangling & _).
  exists g. split; [exact Hg|]. split; [exact Hentry|exact Hdangling].
Defined.
